(** * Hirschberg-Sinclair leader election on a ring: model of [main.py]

    The development follows the source file top-down: the [Message] and
    [Process] classes with [send], [start_phase] and [handle_message], then
    [connect_ring] and the part of [main] that collects the identifiers and
    builds the ring, and finally the threads of [run] as an interleaving of
    atomic steps over a store of shared queues.

    Python integers are unbounded, so every integer field is a [Z].
    Calls of [logging.info] and the [time.sleep] delays have no effect on the
    state of the election and are left out of the methods; the RECEIVED
    records that [handle_message] writes are recovered from a schedule by
    [received_log]. *)

From Stdlib Require Import ZArith Lia.
From stdpp Require Import base option list.

Local Open Scope Z_scope.

(** ** Messages *)

(** [msg.direction] is only ever written by [start_phase], with the string
    literals ['LEFT'] and ['RIGHT']. *)
Inductive Direction : Set := LEFT | RIGHT.

(** class [Message]; the attribute [phase] of a message is [msg_phase] here,
    the name [phase] being kept for the attribute of [Process]. *)
Record Message : Set := mkMessage {
  origin_id : Z;
  direction : Direction;
  msg_phase : Z;
  distance : Z;
  returning : bool
}.

#[global] Instance Direction_eq_dec : EqDecision Direction.
Proof. solve_decision. Defined.

#[global] Instance Message_eq_dec : EqDecision Message.
Proof. solve_decision. Defined.

(** ** Processes *)

(** A [queue.Queue] object lives in a shared store and is named by its
    address there; [left_queue] and [right_queue] are [None] until
    [connect_ring] has run. *)
Abbreviation addr := nat (only parsing).

(** class [Process]. The shared [stop_event] is a component of the world
    below. [in_loop] is the control point of [run]: it is [false] until the
    call of [start_phase] that precedes the receive loop has been made. *)
Record Process : Set := mkProcess {
  pid : Z;
  phase : Z;
  active : bool;
  left_queue : option addr;
  right_queue : option addr;
  inbox : addr;
  confirm_left : bool;
  confirm_right : bool;
  running : bool;
  message_counter : Z;
  ring_size : Z;
  in_loop : bool
}.

(** [Process.__init__], for a process whose fresh inbox is allocated at [a]. *)
Definition Process_init (pid ring_size : Z) (a : addr) : Process :=
  {| pid := pid; phase := 0; active := true;
     left_queue := None; right_queue := None; inbox := a;
     confirm_left := false; confirm_right := false;
     running := true; message_counter := 0;
     ring_size := ring_size; in_loop := false |}.

(** Attribute assignments. *)
Definition set_phase (v : Z) (p : Process) : Process :=
  mkProcess (pid p) v (active p) (left_queue p) (right_queue p) (inbox p)
    (confirm_left p) (confirm_right p) (running p) (message_counter p)
    (ring_size p) (in_loop p).

Definition set_left_queue (v : option addr) (p : Process) : Process :=
  mkProcess (pid p) (phase p) (active p) v (right_queue p) (inbox p)
    (confirm_left p) (confirm_right p) (running p) (message_counter p)
    (ring_size p) (in_loop p).

Definition set_right_queue (v : option addr) (p : Process) : Process :=
  mkProcess (pid p) (phase p) (active p) (left_queue p) v (inbox p)
    (confirm_left p) (confirm_right p) (running p) (message_counter p)
    (ring_size p) (in_loop p).

Definition set_confirm_left (v : bool) (p : Process) : Process :=
  mkProcess (pid p) (phase p) (active p) (left_queue p) (right_queue p) (inbox p)
    v (confirm_right p) (running p) (message_counter p)
    (ring_size p) (in_loop p).

Definition set_confirm_right (v : bool) (p : Process) : Process :=
  mkProcess (pid p) (phase p) (active p) (left_queue p) (right_queue p) (inbox p)
    (confirm_left p) v (running p) (message_counter p)
    (ring_size p) (in_loop p).

Definition set_running (v : bool) (p : Process) : Process :=
  mkProcess (pid p) (phase p) (active p) (left_queue p) (right_queue p) (inbox p)
    (confirm_left p) (confirm_right p) v (message_counter p)
    (ring_size p) (in_loop p).

Definition set_message_counter (v : Z) (p : Process) : Process :=
  mkProcess (pid p) (phase p) (active p) (left_queue p) (right_queue p) (inbox p)
    (confirm_left p) (confirm_right p) (running p) v
    (ring_size p) (in_loop p).

Definition set_in_loop (v : bool) (p : Process) : Process :=
  mkProcess (pid p) (phase p) (active p) (left_queue p) (right_queue p) (inbox p)
    (confirm_left p) (confirm_right p) (running p) (message_counter p)
    (ring_size p) v.

(** What a method does to the world outside its own object: [q.put(msg)] on
    one of the two outgoing queues, and [stop_event.set()]. *)
Inductive Target : Set := LeftQueue | RightQueue.

Inductive Effect : Set :=
| Put (q : Target) (msg : Message)
| StopEventSet.

#[global] Instance Target_eq_dec : EqDecision Target.
Proof. solve_decision. Defined.

#[global] Instance Effect_eq_dec : EqDecision Effect.
Proof. solve_decision. Defined.

(** [Process.send] *)
Definition send (q : Target) (msg : Message) (p : Process) : Process * list Effect :=
  (set_message_counter (message_counter p + 1) p, [Put q msg]).

(** [Process.start_phase]. [2 ** self.phase] is [2 ^ phase]: the phase starts
    at 0 and is only ever incremented (see [proc_ok] below), and for such
    exponents [Z.pow] is Python's integer power. *)
Definition start_phase (p : Process) : Process * list Effect :=
  let distance := 2 ^ phase p in
  let '(p1, e1) := send LeftQueue (mkMessage (pid p) LEFT (phase p) distance false) p in
  let '(p2, e2) := send RightQueue (mkMessage (pid p1) RIGHT (phase p1) distance false) p1 in
  (p2, e1 ++ e2).

(** The mutation of the message in the last part of [handle_message]. *)
Definition hop (msg : Message) : Message :=
  if negb (returning msg) then
    let d := distance msg - 1 in
    mkMessage (origin_id msg) (direction msg) (msg_phase msg) d
      (if d =? 0 then true else returning msg)
  else msg.

(** The choice of [target] in the last part of [handle_message]. *)
Definition choose_target (msg : Message) : Target :=
  match direction msg with
  | LEFT => if returning msg then RightQueue else LeftQueue
  | RIGHT => if returning msg then LeftQueue else RightQueue
  end.

(** The first two tests of [handle_message]. *)
Definition killed (p : Process) (msg : Message) : bool :=
  negb (returning msg) && (origin_id msg <? pid p).

Definition confirms (p : Process) (msg : Message) : bool :=
  (origin_id msg =? pid p) && returning msg.

(** [Process.handle_message] *)
Definition handle_message (p : Process) (msg : Message) : Process * list Effect :=
  if killed p msg then (p, [])
  else if confirms p msg then
    let p1 := match direction msg with
              | LEFT => set_confirm_left true p
              | RIGHT => set_confirm_right true p
              end in
    if confirm_left p1 && confirm_right p1 then
      let radius := 2 ^ phase p1 in
      if radius >=? ring_size p1 then
        (set_running false p1, [StopEventSet])
      else
        start_phase
          (set_confirm_right false
             (set_confirm_left false (set_phase (phase p1 + 1) p1)))
    else (p1, [])
  else
    let msg1 := hop msg in
    send (choose_target msg1) msg1 p.

(** Python-level outcome of a call: a normal return or a raised exception.
    The source contains no [raise]. What can fail in a method of [Process] is
    [q.put(msg)] in [send] while the queue attribute is still [None]: that
    raises [AttributeError], before the message is counted. *)
Inductive Exception : Set :=
| ConfigurationError
| ProtocolInvariantViolation
| AttributeError.

Inductive Outcome (A : Type) : Type :=
| Returns (a : A)
| Raises (e : Exception).
Arguments Returns {A} a.
Arguments Raises {A} e.

(** A process handling a sequence of messages one after the other. *)
Definition handle_all (p : Process) (msgs : list Message) : Process :=
  foldl (fun q msg => fst (handle_message q msg)) p msgs.

(** ** Ring setup *)

(** [connect_ring]: the loop assigns to every process the inboxes of
    [processes[(i - 1) % n]] and [processes[(i + 1) % n]]. No inbox is
    reassigned, so the in-place loop is a map over the positions. For a
    positive modulus Python's [%] is [Z.modulo]; with an empty list the body,
    and so the modulus, is never evaluated. *)
Definition connect_ring (processes : list Process) : list Process :=
  let n := Z.of_nat (length processes) in
  imap (fun i p =>
          let left := processes !! Z.to_nat ((Z.of_nat i - 1) mod n) in
          let right := processes !! Z.to_nat ((Z.of_nat i + 1) mod n) in
          set_right_queue (inbox <$> right) (set_left_queue (inbox <$> left) p))
       processes.


(** The prompts of [main]. A line typed by the user is [Some z] when [int]
    parses it to [z] and [None] when [int] raises [ValueError]; the functions
    give [None] when the input ends before the loop is left. *)
Fixpoint read_N (lines : list (option Z)) : option (Z * list (option Z)) :=
  match lines with
  | [] => None
  | Some N :: rest => if N <? 2 then read_N rest else Some (N, rest)
  | None :: rest => read_N rest
  end.

(** The loop [while len(ids) < N] of the manual branch. *)
Fixpoint read_ids (N : Z) (ids : list Z) (lines : list (option Z))
  : option (list Z * list (option Z)) :=
  if Z.of_nat (length ids) <? N then
    match lines with
    | [] => None
    | Some pid :: rest =>
        if pid <=? 0 then read_ids N ids rest
        else if bool_decide (pid ∈ ids) then read_ids N ids rest
        else read_ids N (ids ++ [pid]) rest
    | None :: rest => read_ids N ids rest
    end
  else Some (ids, lines).

(** A line of standard input, by what [main] can observe of it. A line is
    read by one prompt only, which applies either [int] or
    [.strip().lower()] to it. [int] succeeds on no line that strips and
    lowers to ["y"] or ["n"], so every line is of exactly one kind. *)
Inductive Line : Set :=
| Number (z : Z)
| Yes
| No
| Other.

(** [int(line)], with [None] for [ValueError]. *)
Definition int_of (line : Line) : option Z :=
  match line with
  | Number z => Some z
  | _ => None
  end.

(** The loop of the prompt [Generate random IDs? (y/n)]: the answer is
    [true] for ["y"]. *)
Fixpoint read_choice (lines : list Line) : option (bool * list Line) :=
  match lines with
  | [] => None
  | Yes :: rest => Some (true, rest)
  | No :: rest => Some (false, rest)
  | _ :: rest => read_choice rest
  end.

(** The lines that a loop has left unread, given what it hands back of their
    [int] values. *)
Definition unread (lines : list Line) (rest : list (option Z)) : list Line :=
  drop (length lines - length rest) lines.

(** What the library promises of [random.sample(range(1, 10000), N)]: [N]
    distinct elements of the range. (For [N > 9999] there is no such list
    and [random.sample] raises [ValueError].) *)
Definition sample_ok (N : Z) (draw : list Z) : Prop :=
  Z.of_nat (length draw) = N
  /\ NoDup draw
  /\ Forall (fun x => 1 <= x < 10000) draw.

#[global] Instance sample_ok_dec N draw : Decision (sample_ok N draw).
Proof. unfold sample_ok. apply _. Defined.

(** [main] up to [connect_ring(processes)]: the prompt for [N], the prompt
    for the choice, then either the list [draw] that [random.sample]
    returns or the prompt for the identifiers. The result is [None] when
    the input ends inside a prompt or the sampling fails. *)
Definition main_ids (draw : list Z) (lines : list Line) : option (Z * list Z) :=
  '(N, rest) ← read_N (int_of <$> lines);
  '(random, lines') ← read_choice (unread lines rest);
  if (random : bool) then
    if bool_decide (sample_ok N draw) then Some (N, draw) else None
  else
    '(ids, _) ← read_ids N [] (int_of <$> lines');
    Some (N, ids).

(** ** The running system *)

(** The store of queues, the process objects and the shared event. *)
Record World : Type := mkWorld {
  processes : list Process;
  queues : list (list Message);
  stop_event : bool
}.

(** [processes = [Process(pid, N, stop_event) for pid in ids]] followed by
    [connect_ring(processes)]: the i-th constructor call allocates queue [i].
    In both branches of [main] the list [ids] has [N] elements. *)
Definition build_processes (ids : list Z) : list Process :=
  imap (fun i pid => Process_init pid (Z.of_nat (length ids)) i) ids.

Definition main_world (ids : list Z) : World :=
  {| processes := connect_ring (build_processes ids);
     queues := replicate (length ids) [];
     stop_event := false |}.

Definition resolve (p : Process) (q : Target) : option addr :=
  match q with
  | LeftQueue => left_queue p
  | RightQueue => right_queue p
  end.

(** Whether every [put] among the effects goes through a queue attribute
    that is set. *)
Definition queues_set (p : Process) (effs : list Effect) : bool :=
  forallb (fun e => match e with
                    | Put q _ => bool_decide (is_Some (resolve p q))
                    | StopEventSet => true
                    end) effs.

(** A call of [handle_message], with its outcome. *)
Definition handle_message_call (p : Process) (msg : Message)
  : Outcome (Process * list Effect) :=
  if queues_set p (snd (handle_message p msg))
  then Returns (handle_message p msg)
  else Raises AttributeError.

(** [q.put(msg)] on the queue at address [a]. *)
Definition put (a : addr) (msg : Message) (qs : list (list Message))
  : option (list (list Message)) :=
  q ← qs !! a; Some (<[a := q ++ [msg]]> qs).

(** The effects of a method of process [p], applied in order. A [put]
    through an unset queue attribute stops the thread. *)
Fixpoint perform (p : Process) (effs : list Effect) (w : World) : option World :=
  match effs with
  | [] => Some w
  | Put q msg :: rest =>
      a ← resolve p q;
      qs ← put a msg (queues w);
      perform p rest (mkWorld (processes w) qs (stop_event w))
  | StopEventSet :: rest =>
      perform p rest (mkWorld (processes w) (queues w) true)
  end.

(** The threads. Each executes [run]: [start_phase] once, then one message
    per iteration of the loop. A step is one of these two pieces of [run],
    executed by the thread at position [i] of [processes].

    The loop reads [stop_event] before it blocks on the queue, and another
    thread may set the event in between; a step is therefore not conditioned
    on [stop_event]. The two senders of a queue and the two [put]s of one
    [start_phase] can interleave in any way, so an iteration may take the
    message at any position [k] of the inbox; [k = 0] is the FIFO order of
    [queue.Queue]. Every run of the program is a run of this model. *)
Inductive Action : Set :=
| RunStart (i : nat)
| RunIteration (i : nat) (k : nat).

Definition step (a : Action) (w : World) : option World :=
  match a with
  | RunStart i =>
      p ← processes w !! i;
      if in_loop p then None
      else
        let '(p', effs) := start_phase p in
        let p'' := set_in_loop true p' in
        perform p'' effs
          (mkWorld (<[i := p'']> (processes w)) (queues w) (stop_event w))
  | RunIteration i k =>
      p ← processes w !! i;
      if in_loop p && running p then
        q ← queues w !! inbox p;
        msg ← q !! k;
        let '(p', effs) := handle_message p msg in
        perform p' effs
          (mkWorld (<[i := p']> (processes w))
                   (<[inbox p := delete k q]> (queues w)) (stop_event w))
      else None
  end.

Fixpoint run_schedule (acts : list Action) (w : World) : option World :=
  match acts with
  | [] => Some w
  | a :: rest => w' ← step a w; run_schedule rest w'
  end.

Inductive reachable (ids : list Z) : World -> Prop :=
| reach_init : reachable ids (main_world ids)
| reach_step w a w' :
    reachable ids w -> step a w = Some w' -> reachable ids w'.

(** The state [TERMINATED] of a process: it has declared itself leader, which
    in these steps is the only assignment of [False] to [running]. *)
Definition terminated (p : Process) : Prop := running p = false.

(** [max(ids)] *)
Definition max_id (ids : list Z) : Z :=
  match ids with
  | [] => 0
  | x :: rest => foldl Z.max x rest
  end.

(** All messages that sit in some queue, each with the queue's address. *)
Fixpoint in_flight_from (a : addr) (qs : list (list Message))
  : list (addr * Message) :=
  match qs with
  | [] => []
  | q :: rest => map (pair a) q ++ in_flight_from (S a) rest
  end.

Definition in_flight (w : World) : list (addr * Message) :=
  in_flight_from 0%nat (queues w).

(** The ring [5, 1] of the two-process scenario, with FIFO delivery: both
    threads start, process 1 turns the two probes of phase 0 around,
    process 5 drops the two probes of process 1 and takes its two echoes;
    in phase 1 the probes pass process 1, come back to process 5 itself as
    outbound messages, are turned around there, pass process 1 again and
    return to process 5 as echoes. *)
Definition ring51 : list Z := [5; 1].

Definition schedule51_phase0 : list Action :=
  [RunStart 0; RunStart 1;
   RunIteration 1 0; RunIteration 1 0;
   RunIteration 0 0; RunIteration 0 0;
   RunIteration 0 0; RunIteration 0 0].

Definition schedule51_outbound : list Action :=
  schedule51_phase0 ++ [RunIteration 1 0; RunIteration 1 0].

Definition schedule51 : list Action :=
  schedule51_outbound
  ++ [RunIteration 0 0; RunIteration 0 0;
      RunIteration 1 0; RunIteration 1 0;
      RunIteration 0 0; RunIteration 0 0].

Definition world_after (ids : list Z) (acts : list Action) : World :=
  default (main_world ids) (run_schedule acts (main_world ids)).

(** A schedule in which the threads take turns: in one sweep every thread
    in the list runs one iteration on the head of its inbox, and a thread
    whose [get] would time out (or whose loop has ended) is passed over. *)
Fixpoint sweep (threads : list nat) (w : World) : list Action * World :=
  match threads with
  | [] => ([], w)
  | i :: rest =>
      match step (RunIteration i 0) w with
      | Some w' =>
          let '(acts, w'') := sweep rest w' in (RunIteration i 0 :: acts, w'')
      | None => sweep rest w
      end
  end.

Fixpoint sweeps (fuel : nat) (threads : list nat) (w : World)
  : list Action * World :=
  match fuel with
  | O => ([], w)
  | S fuel' =>
      let '(acts1, w1) := sweep threads w in
      let '(acts2, w2) := sweeps fuel' threads w1 in
      (acts1 ++ acts2, w2)
  end.

(** All threads start in ring order, then they take turns [fuel] times. *)
Definition fair_schedule (ids : list Z) (fuel : nat) : list Action :=
  let threads := seq 0 (length ids) in
  let starts := RunStart <$> threads in
  starts ++ fst (sweeps fuel threads (world_after ids starts)).

(** The ring [3, 7, 1, 9, 2] of the five-process scenario. *)
Definition ring37192 : list Z := [3; 7; 1; 9; 2].

Definition schedule37192 : list Action :=
  Eval vm_compute in fair_schedule ring37192 25.

Definition process_at (w : World) (i : nat) : Process :=
  default (Process_init 0 0 0) (processes w !! i).

(** How a single process object can change over a run: by the one call of
    [start_phase] at the head of [run] and by calls of [handle_message] made
    from the loop, which runs only while [running] holds. *)
Inductive evolves (p0 : Process) : Process -> Prop :=
| ev_init : evolves p0 p0
| ev_start p :
    evolves p0 p -> in_loop p = false ->
    evolves p0 (set_in_loop true (fst (start_phase p)))
| ev_handle p msg :
    evolves p0 p -> in_loop p = true -> running p = true ->
    evolves p0 (fst (handle_message p msg)).

(** The flags of [p] once the echo [msg] has been recorded. *)
Definition both_confirmed_with (p : Process) (msg : Message) : bool :=
  match direction msg with
  | LEFT => confirm_right p
  | RIGHT => confirm_left p
  end.

(** ** Vocabulary of the ring invariants *)

(** The wiring that [connect_ring] computes for position [i] of [n]. *)
Definition ring_left (n i : nat) : addr :=
  Z.to_nat ((Z.of_nat i - 1) mod Z.of_nat n).

Definition ring_right (n i : nat) : addr :=
  Z.to_nat ((Z.of_nat i + 1) mod Z.of_nat n).

(** The identifier found at ring position [z], positions taken modulo the
    size of the ring. *)
Definition ring_at (ids : list Z) (z : Z) : Z :=
  default 0 (ids !! Z.to_nat (z mod Z.of_nat (length ids))).

(** One hop of a probe tagged [d] changes the position by [heading d]. *)
Definition heading (d : Direction) : Z :=
  match d with
  | LEFT => -1
  | RIGHT => 1
  end.

(** No process within [r] hops of position [o], in direction [d], has an
    identifier above [v]. *)
Definition dominated (ids : list Z) (d : Direction) (o r v : Z) : Prop :=
  forall t, 1 <= t <= r -> ring_at ids (o + heading d * t) <= v.

Definition flag (d : Direction) (p : Process) : bool :=
  match d with
  | LEFT => confirm_left p
  | RIGHT => confirm_right p
  end.

(** Origin and tag of a message in flight. *)
Definition key (am : addr * Message) : Z * Direction :=
  (origin_id am.2, direction am.2).

(** The messages that the effects of process [p] add to the queues. *)
Definition deliveries (p : Process) (effs : list Effect) : list (addr * Message) :=
  omap (fun e => match e with
                 | Put q msg => (fun a => (a, msg)) <$> resolve p q
                 | StopEventSet => None
                 end) effs.

(** What holds of the process at position [i] of a ring built from [ids]. *)
Definition proc_ok (ids : list Z) (i : nat) (p : Process) : Prop :=
  ids !! i = Some (pid p)
  /\ inbox p = i
  /\ left_queue p = Some (ring_left (length ids) i)
  /\ right_queue p = Some (ring_right (length ids) i)
  /\ ring_size p = Z.of_nat (length ids)
  /\ 0 <= phase p
  /\ (in_loop p = false ->
      phase p = 0 /\ confirm_left p = false /\ confirm_right p = false
      /\ running p = true)
  /\ (0 < phase p -> 2 ^ (phase p - 1) < ring_size p)
  /\ (running p = false ->
      ring_size p <= 2 ^ phase p
      /\ confirm_left p = true /\ confirm_right p = true).

(** What holds of a message in the queue at address [a]: a process at some
    position [o] is its origin, is in its loop, is in the phase of the
    message and still waits for the echo of that tag. An outbound message
    with [distance] left has made [h = 2^phase - distance + 1] hops, sits [h]
    positions from [o], and passed only processes that its origin dominates;
    a returning one has distance 0 and its origin dominates the whole radius
    on that side. *)
Definition probe_ok (ids : list Z) (procs : list Process)
    (am : addr * Message) : Prop :=
  exists (o : nat) (p : Process),
    procs !! o = Some p
    /\ pid p = origin_id am.2
    /\ in_loop p = true
    /\ phase p = msg_phase am.2
    /\ flag (direction am.2) p = false
    /\ if returning am.2 then
         distance am.2 = 0
         /\ dominated ids (direction am.2) (Z.of_nat o)
              (2 ^ msg_phase am.2) (origin_id am.2)
       else
         1 <= distance am.2 <= 2 ^ msg_phase am.2
         /\ Z.of_nat am.1
            = (Z.of_nat o + heading (direction am.2)
                            * (2 ^ msg_phase am.2 - distance am.2 + 1))
              mod Z.of_nat (length ids)
         /\ dominated ids (direction am.2) (Z.of_nat o)
              (2 ^ msg_phase am.2 - distance am.2) (origin_id am.2).

(** The invariant of the election: every message in flight is accounted
    for, no two of them share origin and tag, and a process that has declared
    itself leader dominates the ring. *)
Definition election_inv (ids : list Z) (w : World) : Prop :=
  Forall (probe_ok ids (processes w)) (in_flight w)
  /\ NoDup (key <$> in_flight w)
  /\ (forall i p, processes w !! i = Some p -> running p = false ->
      forall x, x ∈ ids -> x <= pid p).

(** The distance invariant of messages in flight. *)
Definition distance_ok (am : addr * Message) : Prop :=
  if returning am.2 then distance am.2 = 0 else 1 <= distance am.2.

(** ** Vocabulary of the further properties *)

(** [total_messages = sum(p.message_counter for p in processes)], the
    statistic that [main] prints after the run. *)
Definition total_messages (w : World) : Z :=
  foldl Z.add 0 (message_counter <$> processes w).

(** The number of messages that the threads have taken out of their
    inboxes in a schedule: one per loop iteration. *)
Fixpoint received (acts : list Action) : Z :=
  match acts with
  | [] => 0
  | RunStart _ :: rest => received rest
  | RunIteration _ _ :: rest => 1 + received rest
  end.

(** The number of [put]s among the effects of a method. *)
Fixpoint puts (effs : list Effect) : Z :=
  match effs with
  | [] => 0
  | Put _ _ :: rest => 1 + puts rest
  | StopEventSet :: rest => puts rest
  end.

(** Where the forward rule of the process at position [am.1] of a ring of
    [n] sends the message [am.2], and in which form: the mutation [hop] and
    the queue picked by [choose_target], through the wiring of
    [connect_ring]. *)
Definition relay (n : nat) (am : addr * Message) : addr * Message :=
  (match choose_target (hop am.2) with
   | LeftQueue => ring_left n am.1
   | RightQueue => ring_right n am.1
   end, hop am.2).

(** The position [z] of the ring, as an index. *)
Definition ring_pos (n : nat) (z : Z) : nat := Z.to_nat (z mod Z.of_nat n).

(** What phase [k] of the process at position [i] certifies: within the
    radius of every earlier phase, on both sides, no identifier is above
    its own; and on a side whose flag is set, the same for the radius of
    the current phase. *)
Definition local_max_ok (ids : list Z) (i : nat) (p : Process) : Prop :=
  (forall d, flag d p = true ->
             dominated ids d (Z.of_nat i) (2 ^ phase p) (pid p))
  /\ (0 < phase p ->
      forall d, dominated ids d (Z.of_nat i) (2 ^ (phase p - 1)) (pid p)).

(** A line that the prompt for [N] answers by asking again: not an integer,
    or an integer below 2. *)
Definition rejected_size (line : option Z) : Prop :=
  match line with
  | Some z => z < 2
  | None => True
  end.

(** ** The record of received messages *)

(** What the RECEIVED line of [handle_message] records when an action is
    executed: the thread, by the [pid] in its name, and the message as it
    was taken out of the inbox. *)
Definition taken (a : Action) (w : World) : list (Z * Message) :=
  match a with
  | RunStart _ => []
  | RunIteration i k =>
      match processes w !! i with
      | Some p =>
          match queues w !! inbox p with
          | Some q =>
              match q !! k with
              | Some msg => [(pid p, msg)]
              | None => []
              end
          | None => []
          end
      | None => []
      end
  end.

(** The RECEIVED records of a schedule, in order. *)
Fixpoint received_log (acts : list Action) (w : World) : list (Z * Message) :=
  match acts with
  | [] => []
  | a :: rest =>
      match step a w with
      | Some w' => taken a w ++ received_log rest w'
      | None => []
      end
  end.

(** A world of a run together with the records written on the way. *)
Inductive run_with_log (ids : list Z) : World -> list (Z * Message) -> Prop :=
| rwl_init : run_with_log ids (main_world ids) []
| rwl_step w log a w' :
    run_with_log ids w log -> step a w = Some w' ->
    run_with_log ids w' (log ++ taken a w).

(** The probe of [msg] as it is after [n] hops: still outbound, with
    [2^phase - n + 1] of its distance left. *)
Definition home_probe (n : nat) (msg : Message) : Message :=
  mkMessage (origin_id msg) (direction msg) (msg_phase msg)
    (2 ^ msg_phase msg - Z.of_nat n + 1) false.

(** The ring [9, 1, 2] under a schedule that serves the messages of
    process 9 first, and three iterations that the other threads can still
    run once process 9 has declared itself leader. *)
Definition ring912 : list Z := [9; 1; 2].

Definition schedule912 : list Action :=
  [RunStart 0; RunStart 1; RunStart 2; RunIteration 1 0;
   RunIteration 0 2; RunIteration 2 0; RunIteration 0 2;
   RunIteration 1 1; RunIteration 2 1; RunIteration 1 1;
   RunIteration 2 1; RunIteration 1 1; RunIteration 0 2;
   RunIteration 2 1; RunIteration 0 2; RunIteration 1 1;
   RunIteration 2 1; RunIteration 1 1; RunIteration 0 2;
   RunIteration 2 1; RunIteration 0 2; RunIteration 1 1;
   RunIteration 0 2; RunIteration 2 1; RunIteration 0 2].

Definition afterwards912 : list Action :=
  [RunIteration 1 0; RunIteration 2 0; RunIteration 2 0].

(** * Properties *)

(** ** The handler, one message at a time *)

Lemma killed_not_confirms p msg : killed p msg = true -> confirms p msg = false.
Proof.
  unfold killed, confirms. destruct (returning msg); simpl; [discriminate|].
  intros _. apply andb_false_r.
Qed.

Lemma handle_message_forward p msg :
  killed p msg = false -> confirms p msg = false ->
  handle_message p msg = send (choose_target (hop msg)) (hop msg) p.
Proof. unfold handle_message. intros -> ->. reflexivity. Qed.

Lemma handle_message_confirm p msg :
  confirms p msg = true ->
  handle_message p msg =
    let p1 := match direction msg with
              | LEFT => set_confirm_left true p
              | RIGHT => set_confirm_right true p
              end in
    if both_confirmed_with p msg then
      if 2 ^ phase p >=? ring_size p then (set_running false p1, [StopEventSet])
      else start_phase
             (set_confirm_right false
                (set_confirm_left false (set_phase (phase p + 1) p1)))
    else (p1, []).
Proof.
  intros Hc. unfold handle_message.
  assert (killed p msg = false) as ->.
  { destruct (killed p msg) eqn:E; [|done].
    apply killed_not_confirms in E. congruence. }
  rewrite Hc. unfold both_confirmed_with.
  destruct (direction msg); simpl; [|rewrite andb_true_r]; reflexivity.
Qed.

(** C3: the kill rule. A probe whose origin is smaller than the receiver is
    dropped: the handler sends nothing and returns the process object as it
    was, so phase, confirmation flags and message counter are unchanged. *)
Theorem kill_rule_discards (p : Process) (msg : Message) :
  returning msg = false ->
  origin_id msg < pid p ->
  handle_message p msg = (p, []).
Proof.
  intros Hr Hlt. unfold handle_message, killed. rewrite Hr. simpl.
  apply Z.ltb_lt in Hlt. rewrite Hlt. reflexivity.
Qed.

Lemma kill_rule_discards_witness :
  handle_message (Process_init 7 5 0%nat) (mkMessage 3 LEFT 0 1 false)
  = (Process_init 7 5 0%nat, []).
Proof. apply kill_rule_discards; simpl; [reflexivity | lia]. Defined.

(** C5: the forward rule. A message that is neither killed nor consumed as a
    confirmation is sent on exactly one queue and counted once. An outbound
    message loses one unit of distance and becomes returning exactly when the
    new distance is 0; a returning one is passed on as it is. A message that
    leaves as outbound goes out on the queue of its own tag, one that leaves
    as returning on the opposite queue. *)
Theorem forward_rule (p : Process) (msg : Message) :
  killed p msg = false ->
  confirms p msg = false ->
  exists q msg',
    handle_message p msg
    = (set_message_counter (message_counter p + 1) p, [Put q msg'])
    /\ origin_id msg' = origin_id msg
    /\ direction msg' = direction msg
    /\ msg_phase msg' = msg_phase msg
    /\ (returning msg = false ->
        distance msg' = distance msg - 1
        /\ (returning msg' = true <-> distance msg' = 0))
    /\ (returning msg = true -> msg' = msg)
    /\ (returning msg' = false ->
        q = match direction msg with LEFT => LeftQueue | RIGHT => RightQueue end)
    /\ (returning msg' = true ->
        q = match direction msg with LEFT => RightQueue | RIGHT => LeftQueue end).
Proof.
  intros Hk Hc. exists (choose_target (hop msg)), (hop msg).
  split; [by rewrite handle_message_forward|].
  unfold hop, choose_target.
  destruct msg as [o d k dist r]; destruct r; simpl.
  - repeat split; try done; destruct d; done.
  - destruct (Z.eqb_spec (dist - 1) 0) as [E|E]; simpl;
      repeat split; try done; try lia; destruct d; done.
Qed.

Lemma forward_rule_witness :
  exists q msg',
    handle_message (Process_init 3 5 0%nat) (mkMessage 7 LEFT 1 2 false)
    = (set_message_counter (message_counter (Process_init 3 5 0%nat) + 1)
         (Process_init 3 5 0%nat), [Put q msg'])
    /\ origin_id msg' = 7
    /\ direction msg' = LEFT
    /\ msg_phase msg' = 1
    /\ (false = false ->
        distance msg' = 2 - 1 /\ (returning msg' = true <-> distance msg' = 0))
    /\ (false = true -> msg' = mkMessage 7 LEFT 1 2 false)
    /\ (returning msg' = false -> q = LeftQueue)
    /\ (returning msg' = true -> q = RightQueue).
Proof.
  apply (forward_rule (Process_init 3 5 0%nat) (mkMessage 7 LEFT 1 2 false));
    reflexivity.
Defined.

Lemma start_phase_eq p :
  start_phase p
  = (set_message_counter (message_counter p + 2) p,
     [Put LeftQueue (mkMessage (pid p) LEFT (phase p) (2 ^ phase p) false);
      Put RightQueue (mkMessage (pid p) RIGHT (phase p) (2 ^ phase p) false)]).
Proof.
  unfold start_phase, send, set_message_counter. simpl.
  do 2 f_equal. lia.
Qed.

Lemma handle_message_phase p msg :
  let p' := fst (handle_message p msg) in
  (phase p' = phase p \/ phase p' = phase p + 1)
  /\ (phase p' = phase p + 1 <->
      confirms p msg = true /\ both_confirmed_with p msg = true
      /\ 2 ^ phase p < ring_size p)
  /\ (phase p' = phase p + 1 ->
      confirm_left p' = false /\ confirm_right p' = false).
Proof.
  destruct (confirms p msg) eqn:Hc.
  - rewrite handle_message_confirm by done. simpl.
    destruct (both_confirmed_with p msg).
    + destruct (Z.geb_spec (2 ^ phase p) (ring_size p)) as [Hge|Hlt].
      * destruct (direction msg); simpl; (split; [by left|]);
          (split; [split; [lia | intros (_ & _ & ?); lia] | lia]).
      * rewrite start_phase_eq.
        destruct (direction msg); simpl; (split; [by right|]);
          (split; [split; [done | done] | done]).
    + destruct (direction msg); simpl; (split; [by left|]);
        (split; [split; [lia | intros (_ & ? & _); done] | lia]).
  - unfold handle_message. rewrite Hc.
    destruct (killed p msg); simpl; (split; [by left|]);
      (split; [split; [lia | intros (? & _); done] | lia]).
Qed.

(** C6: the phase counter. A new process has phase 0; one handled message
    leaves the phase as it was or adds exactly 1; it adds 1 exactly when the
    message is an echo of the process's own probe, the flag of the other
    direction is already set (so that both now hold) and the radius of the
    phase is below the ring size; after such an advance both flags are false.
    Over any sequence of handled messages the phase never decreases. *)
Theorem phase_counter_monotone :
  (forall pid rs a, phase (Process_init pid rs a) = 0)
  /\ (forall p msg,
        let p' := fst (handle_message p msg) in
        (phase p' = phase p \/ phase p' = phase p + 1)
        /\ (phase p' = phase p + 1 <->
            confirms p msg = true /\ both_confirmed_with p msg = true
            /\ 2 ^ phase p < ring_size p)
        /\ (phase p' = phase p + 1 ->
            confirm_left p' = false /\ confirm_right p' = false))
  /\ (forall msgs p, phase p <= phase (handle_all p msgs)).
Proof.
  split; [reflexivity|]. split; [apply handle_message_phase|].
  unfold handle_all. induction msgs as [|msg msgs IH]; intros p; simpl; [lia|].
  specialize (IH (fst (handle_message p msg))).
  destruct (handle_message_phase p msg) as [[H|H] _]; lia.
Qed.

(** C8, as the code has it: a non-returning message whose origin is the
    receiver itself raises nothing in a process whose queues have been
    connected. The call returns, and the message has been relayed by the
    forward rule: one [put], one more message counted, nothing else
    changed. *)
Theorem self_probe_is_relayed (p : Process) (msg : Message) :
  is_Some (left_queue p) ->
  is_Some (right_queue p) ->
  origin_id msg = pid p ->
  returning msg = false ->
  handle_message_call p msg
  = Returns (set_message_counter (message_counter p + 1) p,
             [Put (choose_target (hop msg)) (hop msg)]).
Proof.
  intros Hl Hq Ho Hr. unfold handle_message_call.
  rewrite handle_message_forward.
  - unfold send, queues_set. simpl.
    destruct (choose_target (hop msg)); simpl;
      by rewrite bool_decide_eq_true_2.
  - unfold killed. rewrite Ho, Z.ltb_irrefl. apply andb_false_r.
  - unfold confirms. rewrite Hr. apply andb_false_r.
Qed.

Lemma self_probe_is_relayed_witness :
  handle_message_call (process_at (world_after ring51 schedule51_outbound) 0)
    (mkMessage 5 LEFT 1 1 false)
  = Returns (set_message_counter 5
               (process_at (world_after ring51 schedule51_outbound) 0),
             [Put RightQueue (mkMessage 5 LEFT 1 0 true)]).
Proof.
  apply (self_probe_is_relayed
           (process_at (world_after ring51 schedule51_outbound) 0)
           (mkMessage 5 LEFT 1 1 false));
    vm_compute; (by eexists) || reflexivity.
Defined.

(** C8, as stated, fails: in the run of the ring [5, 1], process 5 in phase 1
    finds its own outbound probe at the head of its inbox; the call does
    not raise [ProtocolInvariantViolation], it returns after putting the
    turned message on the right queue. *)
Lemma self_probe_not_raised :
  let w := world_after ring51 schedule51_outbound in
  let p := process_at w 0 in
  let msg := mkMessage 5 LEFT 1 1 false in
  run_schedule schedule51_outbound (main_world ring51) = Some w
  /\ processes w !! 0%nat = Some p
  /\ queues w !! inbox p = Some [msg; mkMessage 5 RIGHT 1 1 false]
  /\ origin_id msg = pid p
  /\ returning msg = false
  /\ handle_message_call p msg <> Raises ProtocolInvariantViolation
  /\ handle_message_call p msg
     = Returns (set_message_counter 5 p,
                [Put RightQueue (mkMessage 5 LEFT 1 0 true)]).
Proof. vm_compute. repeat split. discriminate. Qed.

(** ** The store of queues *)

Lemma perm_swap_ends {A} (x y z : list A) : (x ++ y) ++ z ≡ₚ (z ++ y) ++ x.
Proof.
  rewrite (Permutation_app_comm (x ++ y) z).
  rewrite (Permutation_app_comm x y).
  by rewrite (assoc_L (++)).
Qed.

Lemma in_flight_from_insert a (qs : list (list Message)) i q q' :
  qs !! i = Some q ->
  in_flight_from a (<[i := q']> qs) ++ map (pair (a + i)%nat) q
  ≡ₚ in_flight_from a qs ++ map (pair (a + i)%nat) q'.
Proof.
  revert a i. induction qs as [|q0 qs IH]; intros a [|i] Hi; simplify_eq/=.
  - rewrite Nat.add_0_r. apply perm_swap_ends.
  - rewrite <- !(assoc_L (++)). apply Permutation_app_head.
    replace (a + S i)%nat with (S a + i)%nat by lia.
    by apply IH.
Qed.

Lemma perm_cancel_put {A} (x f q m : list A) :
  x ++ q ≡ₚ f ++ (q ++ m) -> x ≡ₚ f ++ m.
Proof.
  intros H. apply (Permutation_app_inv_r q).
  rewrite H, <- !(assoc_L (++)).
  apply Permutation_app_head, Permutation_app_comm.
Qed.

Lemma perm_cancel_get {A} (x f d : list A) e :
  x ++ e :: d ≡ₚ f ++ d -> f ≡ₚ e :: x.
Proof.
  intros H. apply (Permutation_app_inv_r d).
  rewrite <- H. simpl. symmetry. apply Permutation_middle.
Qed.

Lemma in_flight_from_put (qs : list (list Message)) i q msg :
  qs !! i = Some q ->
  in_flight_from 0%nat (<[i := q ++ [msg]]> qs)
  ≡ₚ in_flight_from 0%nat qs ++ [(i, msg)].
Proof.
  intros Hi.
  pose proof (in_flight_from_insert 0%nat qs i q (q ++ [msg]) Hi) as H.
  simpl in H. rewrite map_app in H. by apply perm_cancel_put in H.
Qed.

Lemma in_flight_from_get (qs : list (list Message)) i q k msg :
  qs !! i = Some q -> q !! k = Some msg ->
  in_flight_from 0%nat qs
  ≡ₚ (i, msg) :: in_flight_from 0%nat (<[i := delete k q]> qs).
Proof.
  intros Hi Hk.
  pose proof (in_flight_from_insert 0%nat qs i q (delete k q) Hi) as H.
  simpl in H.
  assert (map (pair i) q ≡ₚ (i, msg) :: map (pair i) (delete k q)) as Hq.
  { by rewrite (delete_Permutation q k msg Hk) at 1. }
  rewrite Hq in H. by apply perm_cancel_get in H.
Qed.

(** ** One step of the system *)

#[local] Arguments start_phase : simpl never.
#[local] Arguments handle_message : simpl never.
#[local] Arguments perform : simpl nomatch.

Lemma perform_spec p effs w w' :
  perform p effs w = Some w' ->
  processes w' = processes w
  /\ length (queues w') = length (queues w)
  /\ in_flight w' ≡ₚ in_flight w ++ deliveries p effs.
Proof.
  revert w. induction effs as [|[q msg|] effs IH]; intros w H; simpl in H.
  - simplify_eq. unfold deliveries. simpl. by rewrite app_nil_r.
  - destruct (resolve p q) as [a|] eqn:Ha; simplify_eq/=.
    unfold put in H.
    destruct (queues w !! a) as [q0|] eqn:Hq; simplify_eq/=.
    apply IH in H as (-> & -> & Hfl). simpl.
    split; [done|]. split; [by rewrite length_insert|].
    rewrite Hfl. unfold in_flight, deliveries. simpl. rewrite Ha. simpl.
    rewrite (in_flight_from_put _ _ _ _ Hq).
    by rewrite <- (assoc_L (++)).
  - apply IH in H as (-> & -> & Hfl). simpl. done.
Qed.

Lemma step_start_inv i w w' :
  step (RunStart i) w = Some w' ->
  exists p,
    processes w !! i = Some p
    /\ in_loop p = false
    /\ processes w'
       = <[i := set_in_loop true (fst (start_phase p))]> (processes w)
    /\ length (queues w') = length (queues w)
    /\ in_flight w'
       ≡ₚ in_flight w
          ++ deliveries (set_in_loop true (fst (start_phase p)))
               (snd (start_phase p)).
Proof.
  unfold step. intros H.
  apply bind_Some in H as (p & Hp & H). exists p.
  destruct (in_loop p) eqn:Hl; [done|].
  destruct (start_phase p) as [p' effs] eqn:Hs.
  by apply perform_spec in H as (H1 & H2 & H3).
Qed.

Lemma step_iter_inv i k w w' :
  step (RunIteration i k) w = Some w' ->
  exists p msg rest,
    processes w !! i = Some p
    /\ in_loop p = true
    /\ running p = true
    /\ in_flight w ≡ₚ (inbox p, msg) :: rest
    /\ processes w' = <[i := fst (handle_message p msg)]> (processes w)
    /\ length (queues w') = length (queues w)
    /\ in_flight w'
       ≡ₚ rest ++ deliveries (fst (handle_message p msg))
                    (snd (handle_message p msg)).
Proof.
  unfold step. intros H.
  apply bind_Some in H as (p & Hp & H).
  destruct (in_loop p) eqn:Hl; [|done].
  destruct (running p) eqn:Hr; [|done].
  apply bind_Some in H as (q & Hq & H).
  apply bind_Some in H as (msg & Hk & H).
  exists p, msg, (in_flight_from 0%nat (<[inbox p := delete k q]> (queues w))).
  destruct (handle_message p msg) as [p' effs] eqn:Hh.
  apply perform_spec in H as (H1 & H2 & H3).
  unfold in_flight in *. simpl in *. repeat split; try assumption.
  - by apply in_flight_from_get.
  - by rewrite H2, length_insert.
Qed.

(** ** The ring built by [main] *)

Lemma build_processes_lookup ids i p :
  build_processes ids !! i = Some p ->
  exists x, ids !! i = Some x /\ p = Process_init x (Z.of_nat (length ids)) i.
Proof.
  unfold build_processes. rewrite list_lookup_imap.
  destruct (ids !! i) as [x|]; simpl; [|done]. intros [= <-]. by exists x.
Qed.

Lemma build_processes_length ids :
  length (build_processes ids) = length ids.
Proof. apply length_imap. Qed.

Lemma ring_left_lt n i : (i < n)%nat -> (ring_left n i < n)%nat.
Proof.
  intros Hi. unfold ring_left.
  pose proof (Z.mod_pos_bound (Z.of_nat i - 1) (Z.of_nat n)). lia.
Qed.

Lemma ring_right_lt n i : (i < n)%nat -> (ring_right n i < n)%nat.
Proof.
  intros Hi. unfold ring_right.
  pose proof (Z.mod_pos_bound (Z.of_nat i + 1) (Z.of_nat n)). lia.
Qed.

Lemma connect_ring_lookup procs i p :
  procs !! i = Some p ->
  exists l r,
    procs !! ring_left (length procs) i = Some l
    /\ procs !! ring_right (length procs) i = Some r
    /\ connect_ring procs !! i
       = Some (set_right_queue (Some (inbox r))
                 (set_left_queue (Some (inbox l)) p)).
Proof.
  intros Hp. assert (i < length procs)%nat as Hi by by eapply lookup_lt_Some.
  destruct (lookup_lt_is_Some_2 procs _ (ring_left_lt _ _ Hi)) as [l Hl].
  destruct (lookup_lt_is_Some_2 procs _ (ring_right_lt _ _ Hi)) as [r Hr].
  exists l, r. split; [done|]. split; [done|].
  unfold connect_ring. rewrite list_lookup_imap, Hp. simpl.
  unfold ring_left, ring_right in Hl, Hr. by rewrite Hl, Hr.
Qed.

Lemma connect_ring_length procs : length (connect_ring procs) = length procs.
Proof. apply length_imap. Qed.

Lemma main_world_lookup ids i p0 :
  processes (main_world ids) !! i = Some p0 ->
  exists x,
    ids !! i = Some x
    /\ p0 = set_right_queue (Some (ring_right (length ids) i))
              (set_left_queue (Some (ring_left (length ids) i))
                 (Process_init x (Z.of_nat (length ids)) i)).
Proof.
  simpl. intros H.
  assert (i < length (build_processes ids))%nat as Hi.
  { rewrite <- connect_ring_length. by eapply lookup_lt_Some. }
  destruct (lookup_lt_is_Some_2 _ _ Hi) as [p Hp].
  destruct (connect_ring_lookup _ _ _ Hp) as (l & r & Hl & Hr & Hc).
  rewrite H in Hc. injection Hc as ->.
  apply build_processes_lookup in Hp as (x & Hx & ->).
  apply build_processes_lookup in Hl as (xl & _ & ->).
  apply build_processes_lookup in Hr as (xr & _ & ->).
  rewrite build_processes_length. by exists x.
Qed.

(** Every process object of a reachable world has evolved from the object
    that [main] built at its position. *)
Lemma reachable_evolves ids w :
  reachable ids w ->
  length (processes w) = length ids
  /\ length (queues w) = length ids
  /\ forall i p, processes w !! i = Some p ->
       exists p0, processes (main_world ids) !! i = Some p0 /\ evolves p0 p.
Proof.
  induction 1 as [|w a w' Hw (IHl & IHq & IH) Hstep].
  - simpl. rewrite connect_ring_length, build_processes_length, length_replicate.
    repeat split; try done. intros i p Hp. exists p. split; [done|constructor].
  - destruct a as [i|i k].
    + apply step_start_inv in Hstep as (p & Hp & Hl & Hprocs & Hq & _).
      rewrite Hprocs, length_insert, Hq. repeat split; try done.
      intros j pj Hj. destruct (decide (i = j)) as [<-|Hne].
      * rewrite list_lookup_insert_eq in Hj by by eapply lookup_lt_Some.
        injection Hj as <-. destruct (IH _ _ Hp) as (p0 & H0 & Hev).
        exists p0. split; [done|]. by constructor.
      * rewrite list_lookup_insert_ne in Hj by done. by apply IH.
    + apply step_iter_inv in Hstep
        as (p & msg & rest & Hp & Hl & Hr & _ & Hprocs & Hq & _).
      rewrite Hprocs, length_insert, Hq. repeat split; try done.
      intros j pj Hj. destruct (decide (i = j)) as [<-|Hne].
      * rewrite list_lookup_insert_eq in Hj by by eapply lookup_lt_Some.
        injection Hj as <-. destruct (IH _ _ Hp) as (p0 & H0 & Hev).
        exists p0. split; [done|]. by constructor.
      * rewrite list_lookup_insert_ne in Hj by done. by apply IH.
Qed.

(** ** What every process satisfies *)

Lemma handle_message_cases p msg :
  handle_message p msg = (p, [])
  \/ (confirms p msg = true
      /\ ((both_confirmed_with p msg = false
           /\ handle_message p msg
              = (match direction msg with
                 | LEFT => set_confirm_left true p
                 | RIGHT => set_confirm_right true p
                 end, []))
          \/ (both_confirmed_with p msg = true
              /\ ring_size p <= 2 ^ phase p
              /\ handle_message p msg
                 = (set_running false
                      (set_confirm_right true (set_confirm_left true p)),
                    [StopEventSet]))
          \/ (both_confirmed_with p msg = true
              /\ 2 ^ phase p < ring_size p
              /\ handle_message p msg
                 = start_phase
                     (set_confirm_right false
                        (set_confirm_left false
                           (set_phase (phase p + 1) p))))))
  \/ (killed p msg = false /\ confirms p msg = false
      /\ handle_message p msg
         = (set_message_counter (message_counter p + 1) p,
            [Put (choose_target (hop msg)) (hop msg)])).
Proof.
  destruct (confirms p msg) eqn:Hc.
  - right; left. split; [done|]. rewrite handle_message_confirm by done.
    unfold both_confirmed_with. simpl.
    destruct p as [? ? ? ? ? ? cl cr ? ? ? ?]; simpl.
    destruct (direction msg); simpl.
    + destruct cr; [|by left]. right.
      destruct (Z.geb_spec (2 ^ phase0) ring_size0); [left|right]; split; try done;
        split; try lia; done.
    + destruct cl; [|by left]. right.
      destruct (Z.geb_spec (2 ^ phase0) ring_size0); [left|right]; split; try done;
        split; try lia; done.
  - destruct (killed p msg) eqn:Hk.
    + left. unfold handle_message. by rewrite Hk.
    + right; right. split; [done|]. split; [done|].
      by rewrite handle_message_forward.
Qed.

Lemma evolves_proc_ok ids i p0 p :
  processes (main_world ids) !! i = Some p0 ->
  evolves p0 p ->
  proc_ok ids i p.
Proof.
  intros H0 Hev. apply main_world_lookup in H0 as (x & Hx & ->).
  induction Hev as [|p Hev IH Hl|p msg Hev IH Hl Hr].
  - unfold proc_ok. simpl. repeat split; try done; lia.
  - rewrite start_phase_eq. simpl.
    destruct IH as (I1 & I2 & I3 & I4 & I5 & I6 & I7 & I8 & I9).
    destruct (I7 Hl) as (J1 & J2 & J3 & J4).
    unfold proc_ok. simpl. repeat split; try done; try lia; congruence.
  - destruct IH as (I1 & I2 & I3 & I4 & I5 & I6 & I7 & I8 & I9).
    destruct (handle_message_cases p msg)
      as [E|[(Hc & [(Hb & E)|[(Hb & Hrad & E)|(Hb & Hrad & E)]])|(_ & _ & E)]];
      try rewrite start_phase_eq in E; rewrite E; clear E;
      unfold proc_ok; simpl.
    + done.
    + destruct (direction msg); simpl; repeat split; try done; congruence.
    + repeat split; try done; congruence.
    + repeat split; try done; try lia; try congruence.
      intros _. replace (phase p + 1 - 1) with (phase p) by lia. lia.
    + repeat split; try done; congruence.
Qed.

Lemma reachable_proc_ok ids w i p :
  reachable ids w -> processes w !! i = Some p -> proc_ok ids i p.
Proof.
  intros Hw Hp. apply reachable_evolves in Hw as (_ & _ & H).
  destruct (H _ _ Hp) as (p0 & H0 & Hev). by eapply evolves_proc_ok.
Qed.

(** ** Messages in flight *)

Lemma in_flight_from_replicate a n : in_flight_from a (replicate n []) = [].
Proof. revert a. induction n as [|n IH]; intros a; simpl; [done|apply IH]. Qed.

Lemma in_flight_main_world ids : in_flight (main_world ids) = [].
Proof. apply in_flight_from_replicate. Qed.

Lemma deliveries_start_phase ids i p p' :
  proc_ok ids i p ->
  left_queue p' = left_queue p -> right_queue p' = right_queue p ->
  deliveries p' (snd (start_phase p))
  = [(ring_left (length ids) i,
      mkMessage (pid p) LEFT (phase p) (2 ^ phase p) false);
     (ring_right (length ids) i,
      mkMessage (pid p) RIGHT (phase p) (2 ^ phase p) false)].
Proof.
  intros (_ & _ & Hl & Hr & _) El Er. rewrite start_phase_eq.
  unfold deliveries. simpl. by rewrite El, Er, Hl, Hr.
Qed.

Lemma deliveries_forward ids i p p' msg :
  proc_ok ids i p ->
  left_queue p' = left_queue p -> right_queue p' = right_queue p ->
  deliveries p' [Put (choose_target msg) msg]
  = [(match choose_target msg with
      | LeftQueue => ring_left (length ids) i
      | RightQueue => ring_right (length ids) i
      end, msg)].
Proof.
  intros (_ & _ & Hl & Hr & _) El Er.
  unfold deliveries. simpl.
  destruct (choose_target msg); simpl; by rewrite ?El, ?Er, ?Hl, ?Hr.
Qed.

Lemma distance_ok_hop a a' msg :
  distance_ok (a, msg) -> distance_ok (a', hop msg).
Proof.
  unfold distance_ok, hop. simpl.
  destruct (returning msg) eqn:Hr; simpl; [by rewrite Hr|].
  destruct (Z.eqb_spec (distance msg - 1) 0); simpl; lia.
Qed.

Lemma pow2_pos k : 0 <= k -> 1 <= 2 ^ k.
Proof. intros Hk. pose proof (Z.pow_pos_nonneg 2 k). lia. Qed.

Lemma proc_ok_advance ids i p :
  proc_ok ids i p -> in_loop p = true -> running p = true ->
  2 ^ phase p < ring_size p ->
  proc_ok ids i
    (set_confirm_right false
       (set_confirm_left false (set_phase (phase p + 1) p))).
Proof.
  intros (I1 & I2 & I3 & I4 & I5 & I6 & I7 & I8 & I9) Hl Hr Hrad.
  unfold proc_ok. simpl. repeat split; try done; try lia; try congruence.
  intros _. replace (phase p + 1 - 1) with (phase p) by lia. lia.
Qed.

Lemma reachable_distance_ok ids w :
  reachable ids w -> Forall distance_ok (in_flight w).
Proof.
  induction 1 as [|w a w' Hw IH Hstep].
  - rewrite in_flight_main_world. constructor.
  - destruct a as [i|i k].
    + apply step_start_inv in Hstep as (p & Hp & Hl & Hprocs & Hq & Hfl).
      pose proof (reachable_proc_ok _ _ _ _ Hw Hp) as Hok.
      rewrite Hfl, (deliveries_start_phase ids i p) by (done || by rewrite start_phase_eq).
      apply Forall_app. split; [done|].
      destruct Hok as (_ & _ & _ & _ & _ & Hph & _).
      apply pow2_pos in Hph.
      repeat constructor; unfold distance_ok; simpl; lia.
    + apply step_iter_inv in Hstep
        as (p & msg & rest & Hp & Hl & Hr & Hfl & Hprocs & Hq & Hfl').
      pose proof (reachable_proc_ok _ _ _ _ Hw Hp) as Hok.
      rewrite Hfl in IH. apply Forall_cons in IH as [Hmsg Hrest].
      rewrite Hfl'. apply Forall_app. split; [done|].
      destruct (handle_message_cases p msg)
        as [E|[(Hc & [(Hb & E)|[(Hb & Hrad & E)|(Hb & Hrad & E)]])|(_ & _ & E)]];
        rewrite E; clear E.
      * constructor.
      * constructor.
      * constructor.
      * set (p1 := set_confirm_right false _).
        assert (proc_ok ids i p1) as Hok1 by by apply proc_ok_advance.
        rewrite (deliveries_start_phase ids i p1) by (done || by rewrite start_phase_eq).
        destruct Hok as (_ & _ & _ & _ & _ & Hph & _).
        assert (1 <= 2 ^ (phase p + 1)) by (apply pow2_pos; lia).
        repeat constructor; unfold distance_ok; simpl; lia.
      * cbn [fst snd]. rewrite (deliveries_forward ids i p) by done.
        repeat constructor. by eapply distance_ok_hop.
Qed.

(** C10: in every reachable world a message that sits in a queue has
    distance 0 when it is returning and distance at least 1 when it is
    outbound; so the decrement of the forward rule, which only outbound
    messages undergo, never starts from 0 and no distance is negative. *)
Theorem outbound_distance_positive (ids : list Z) (w : World)
    (a : addr) (msg : Message) :
  reachable ids w ->
  (a, msg) ∈ in_flight w ->
  0 <= distance msg
  /\ (returning msg = false -> 1 <= distance msg /\ 0 <= distance (hop msg))
  /\ (returning msg = true -> distance msg = 0).
Proof.
  intros Hw Hin.
  pose proof (reachable_distance_ok _ _ Hw) as H.
  rewrite Forall_forall in H. specialize (H _ Hin).
  unfold distance_ok in H. simpl in H. unfold hop.
  destruct (returning msg); simpl; repeat split; try done; try lia.
Qed.

(** ** Positions on the ring *)

Lemma ring_at_lookup ids i x z :
  ids !! i = Some x ->
  z mod Z.of_nat (length ids) = Z.of_nat i ->
  ring_at ids z = x.
Proof. intros Hx Hz. unfold ring_at. by rewrite Hz, Nat2Z.id, Hx. Qed.

Lemma ring_left_Z n i :
  (i < n)%nat -> Z.of_nat (ring_left n i) = (Z.of_nat i - 1) mod Z.of_nat n.
Proof.
  intros Hi. unfold ring_left.
  pose proof (Z.mod_pos_bound (Z.of_nat i - 1) (Z.of_nat n)). lia.
Qed.

Lemma ring_right_Z n i :
  (i < n)%nat -> Z.of_nat (ring_right n i) = (Z.of_nat i + 1) mod Z.of_nat n.
Proof.
  intros Hi. unfold ring_right.
  pose proof (Z.mod_pos_bound (Z.of_nat i + 1) (Z.of_nat n)). lia.
Qed.

(** The queue on which a message tagged [d] travels outwards from [i]. *)
Lemma neighbour_Z n i d :
  (i < n)%nat ->
  Z.of_nat (match d with
            | LEFT => ring_left n i
            | RIGHT => ring_right n i
            end)
  = (Z.of_nat i + heading d) mod Z.of_nat n.
Proof.
  intros Hi. destruct d; simpl; [by rewrite ring_left_Z|by rewrite ring_right_Z].
Qed.

(** A radius of at least the ring size reaches every position. *)
Lemma dominated_full ids d o r v :
  Z.of_nat (length ids) <= r ->
  dominated ids d o r v ->
  forall x, x ∈ ids -> x <= v.
Proof.
  intros Hr Hdom x Hx.
  apply list_elem_of_lookup in Hx as [j Hj].
  pose proof (lookup_lt_Some _ _ _ Hj) as Hlt.
  set (n := Z.of_nat (length ids)) in *.
  set (t := (heading d * (Z.of_nat j - o) - 1) mod n + 1).
  assert (1 <= t <= n) as Ht.
  { pose proof (Z.mod_pos_bound (heading d * (Z.of_nat j - o) - 1) n).
    unfold t. lia. }
  rewrite <- (ring_at_lookup ids j x (o + heading d * t) Hj).
  - apply Hdom. lia.
  - fold n. unfold t.
    rewrite (Z.mod_eq (heading d * (Z.of_nat j - o) - 1) n) by lia.
    set (q := (heading d * (Z.of_nat j - o) - 1) / n).
    replace (o + heading d * (heading d * (Z.of_nat j - o) - 1 - n * q + 1))
      with (Z.of_nat j + (- heading d * q) * n)
      by (destruct d; simpl; lia).
    rewrite Z_mod_plus_full. apply Z.mod_small. lia.
Qed.

(** ** Preservation of the message invariant *)

Lemma probe_ok_insert ids procs i p p' am :
  procs !! i = Some p ->
  (pid p = origin_id am.2 -> in_loop p = true ->
   phase p = msg_phase am.2 -> flag (direction am.2) p = false ->
   pid p' = pid p /\ in_loop p' = true /\ phase p' = phase p
   /\ flag (direction am.2) p' = false) ->
  probe_ok ids procs am ->
  probe_ok ids (<[i := p']> procs) am.
Proof.
  intros Hp Hsame (o & po & Ho & H1 & H2 & H3 & H4 & H5).
  destruct (decide (i = o)) as [<-|Hne].
  - simplify_eq. destruct (Hsame H1 H2 H3 H4) as (E1 & E2 & E3 & E4).
    exists i, p'. rewrite list_lookup_insert_eq by by eapply lookup_lt_Some.
    repeat split; try done; congruence.
  - exists o, po. rewrite list_lookup_insert_ne by done. done.
Qed.

Lemma probe_ok_fresh ids procs i p d :
  procs !! i = Some p ->
  proc_ok ids i p ->
  in_loop p = true ->
  flag d p = false ->
  probe_ok ids procs
    (match d with
     | LEFT => ring_left (length ids) i
     | RIGHT => ring_right (length ids) i
     end,
     mkMessage (pid p) d (phase p) (2 ^ phase p) false).
Proof.
  intros Hp (I1 & _ & _ & _ & _ & I6 & _) Hl Hf.
  pose proof (lookup_lt_Some _ _ _ I1) as Hlt.
  pose proof (pow2_pos _ I6).
  exists i, p. simpl. repeat split; try done; try lia.
  - rewrite neighbour_Z by done. f_equal. lia.
  - intros t Ht. lia.
Qed.

Lemma probe_ok_hop ids procs i p msg :
  probe_ok ids procs (i, msg) ->
  ids !! i = Some (pid p) ->
  killed p msg = false ->
  probe_ok ids procs
    (match choose_target (hop msg) with
     | LeftQueue => ring_left (length ids) i
     | RightQueue => ring_right (length ids) i
     end, hop msg).
Proof.
  intros (o & po & Ho & H1 & H2 & H3 & H4 & H5) Hi Hk.
  pose proof (lookup_lt_Some _ _ _ Hi) as Hlt.
  exists o, po. unfold hop, choose_target, killed in *. simpl in *.
  destruct (returning msg) eqn:Hret; simpl in *.
  { rewrite Hret. done. }
  apply Z.ltb_ge in Hk.
  destruct H5 as (Hd & Hpos & Hdom).
  assert (ring_at ids
            (Z.of_nat o + heading (direction msg)
                          * (2 ^ msg_phase msg - distance msg + 1))
          = pid p) as Hhere.
  { apply (ring_at_lookup _ i); [done|]. by rewrite <- Hpos. }
  assert (dominated ids (direction msg) (Z.of_nat o)
            (2 ^ msg_phase msg - (distance msg - 1)) (origin_id msg)) as Hdom'.
  { intros t Ht.
    destruct (decide (t = 2 ^ msg_phase msg - distance msg + 1)) as [->|Hne].
    - rewrite Hhere. lia.
    - apply Hdom. lia. }
  destruct (Z.eqb_spec (distance msg - 1) 0) as [E|E]; simpl.
  - repeat split; try done.
    replace (2 ^ msg_phase msg) with (2 ^ msg_phase msg - (distance msg - 1))
      at 1 by lia.
    done.
  - repeat split; try done; try lia.
    transitivity ((Z.of_nat i + heading (direction msg))
                  mod Z.of_nat (length ids)).
    { rewrite <- neighbour_Z by done. by destruct (direction msg). }
    rewrite Hpos, Zplus_mod_idemp_l. f_equal. lia.
Qed.

(** ** The election invariant *)

Lemma origin_unique ids w i j p q :
  NoDup ids -> reachable ids w ->
  processes w !! i = Some p -> processes w !! j = Some q ->
  pid p = pid q -> i = j.
Proof.
  intros Hnd Hw Hp Hq Heq.
  destruct (reachable_proc_ok _ _ _ _ Hw Hp) as (Hi & _).
  destruct (reachable_proc_ok _ _ _ _ Hw Hq) as (Hj & _).
  rewrite Heq in Hi. by eapply NoDup_lookup.
Qed.

(** The process that a message in flight names as its origin. *)
Lemma probe_origin ids w i p am :
  NoDup ids -> reachable ids w ->
  processes w !! i = Some p ->
  probe_ok ids (processes w) am ->
  origin_id am.2 = pid p ->
  in_loop p = true /\ phase p = msg_phase am.2
  /\ flag (direction am.2) p = false
  /\ (returning am.2 = true ->
      dominated ids (direction am.2) (Z.of_nat i) (2 ^ phase p) (pid p)).
Proof.
  intros Hnd Hw Hp (o & po & Ho & H1 & H2 & H3 & H4 & H5) Heq.
  assert (o = i) as -> by (eapply origin_unique; eauto; congruence).
  simplify_eq. repeat split; try done.
  intros Hret. rewrite Hret in H5. rewrite H3, <- Heq. apply H5.
Qed.

Lemma flag_other p msg d :
  both_confirmed_with p msg = true -> flag d p = false -> d = direction msg.
Proof.
  unfold both_confirmed_with, flag.
  destruct (direction msg), d; try done; congruence.
Qed.

Lemma election_inv_init ids : election_inv ids (main_world ids).
Proof.
  unfold election_inv. rewrite in_flight_main_world.
  split; [constructor|]. split; [constructor|].
  intros i p Hp Hr. apply main_world_lookup in Hp as (x & _ & ->). done.
Qed.

Lemma election_inv_start ids w i w' :
  NoDup ids -> reachable ids w -> election_inv ids w ->
  step (RunStart i) w = Some w' ->
  election_inv ids w'.
Proof.
  intros Hnd Hw (Hprobes & Hkeys & Hmax) Hstep.
  apply step_start_inv in Hstep as (p & Hp & Hl & Hprocs & Hq & Hfl).
  pose proof (reachable_proc_ok _ _ _ _ Hw Hp) as Hok.
  rewrite (deliveries_start_phase ids i p) in Hfl
    by (done || by rewrite start_phase_eq).
  rewrite start_phase_eq in Hprocs. simpl in Hprocs.
  set (p' := set_in_loop true _) in Hprocs.
  pose proof (lookup_lt_Some _ _ _ Hp) as Hlt.
  assert (processes w' !! i = Some p') as Hp'
    by by rewrite Hprocs, list_lookup_insert_eq.
  assert (proc_ok ids i p') as Hok'.
  { destruct Hok as (I1 & I2 & I3 & I4 & I5 & I6 & I7 & I8 & I9).
    destruct (I7 Hl) as (J1 & J2 & J3 & J4).
    unfold proc_ok, p'. simpl. repeat split; try done; congruence. }
  destruct Hok as (_ & _ & _ & _ & _ & _ & Hfresh & _).
  destruct (Hfresh Hl) as (_ & Hcl & Hcr & Hrun).
  assert (forall am, am ∈ in_flight w -> origin_id am.2 <> pid p) as Hnone.
  { intros am Ham Heq. rewrite Forall_forall in Hprobes.
    destruct (probe_origin ids w i p am Hnd Hw Hp (Hprobes _ Ham) Heq)
      as (? & _). congruence. }
  split; [|split].
  - rewrite Hfl. apply Forall_app. split.
    + rewrite Forall_forall in Hprobes |- *. intros am Ham. rewrite Hprocs.
      apply (probe_ok_insert ids _ i p); [done| |by apply Hprobes].
      intros _ ?. congruence.
    + repeat constructor.
      * apply (probe_ok_fresh ids (processes w') i p' LEFT); done.
      * apply (probe_ok_fresh ids (processes w') i p' RIGHT); done.
  - rewrite Hfl, fmap_app. apply NoDup_app. split; [done|]. split.
    + intros k Hk Hk'. apply list_elem_of_fmap in Hk as (am & -> & Ham).
      apply (Hnone _ Ham). unfold key in Hk'. simpl in Hk'.
      rewrite !elem_of_cons in Hk'.
      destruct Hk' as [E|[E|E]]; [by injection E|by injection E|].
      by apply elem_of_nil in E.
    + simpl. unfold key. simpl. apply NoDup_cons. split.
      * rewrite elem_of_cons. intros [E|E]; [done|by apply elem_of_nil in E].
      * apply NoDup_singleton.
  - intros j pj Hj Hr. rewrite Hprocs in Hj.
    destruct (decide (i = j)) as [<-|Hne].
    + rewrite list_lookup_insert_eq in Hj by done. injection Hj as <-.
      simpl in Hr. congruence.
    + rewrite list_lookup_insert_ne in Hj by done. by eapply Hmax.
Qed.

Lemma hop_key a a' msg : key (a', hop msg) = key (a, msg).
Proof. unfold key, hop. simpl. by destruct (returning msg). Qed.

Lemma confirms_spec p msg :
  confirms p msg = true -> origin_id msg = pid p /\ returning msg = true.
Proof.
  unfold confirms. intros [H1 H2]%andb_true_iff. by apply Z.eqb_eq in H1.
Qed.

Lemma max_preserved (ids : list Z) (procs : list Process) i p p' :
  procs !! i = Some p ->
  (forall j pj, procs !! j = Some pj -> running pj = false ->
                forall x, x ∈ ids -> x <= pid pj) ->
  (running p' = false -> forall x, x ∈ ids -> x <= pid p') ->
  forall j pj, <[i := p']> procs !! j = Some pj -> running pj = false ->
               forall x, x ∈ ids -> x <= pid pj.
Proof.
  intros Hp Hmax Hnew j pj Hj Hr.
  destruct (decide (i = j)) as [<-|Hne].
  - rewrite list_lookup_insert_eq in Hj by by eapply lookup_lt_Some.
    injection Hj as <-. by apply Hnew.
  - rewrite list_lookup_insert_ne in Hj by done. by eapply Hmax.
Qed.

Lemma election_inv_iter ids w i k w' :
  NoDup ids -> reachable ids w -> election_inv ids w ->
  step (RunIteration i k) w = Some w' ->
  election_inv ids w'.
Proof.
  intros Hnd Hw (Hprobes & Hkeys & Hmax) Hstep.
  apply step_iter_inv in Hstep
    as (p & msg & rest & Hp & Hl & Hr & Hfl & Hprocs & Hq & Hfl').
  pose proof (reachable_proc_ok _ _ _ _ Hw Hp) as Hok.
  pose proof (lookup_lt_Some _ _ _ Hp) as Hlt.
  assert (inbox p = i) as Hinbox by apply Hok.
  assert (ids !! i = Some (pid p)) as Hid by apply Hok.
  assert (forall am, am ∈ rest -> probe_ok ids (processes w) am) as Hrest.
  { intros am Ham. rewrite Forall_forall in Hprobes. apply Hprobes.
    rewrite Hfl. by right. }
  assert (probe_ok ids (processes w) (i, msg)) as Hmsg.
  { rewrite Forall_forall in Hprobes. apply Hprobes.
    rewrite Hfl, Hinbox. by left. }
  rewrite Hfl, fmap_cons in Hkeys. apply NoDup_cons in Hkeys as [Hnew Hkeys].
  assert (forall am, am ∈ rest -> origin_id msg = pid p ->
            origin_id am.2 = pid p -> direction am.2 <> direction msg) as Hclash.
  { intros am Ham E1 E2 E3. apply Hnew.
    apply list_elem_of_fmap. exists am. split; [|done].
    unfold key. simpl. congruence. }
  assert (forall am, am ∈ rest -> origin_id msg = pid p ->
            both_confirmed_with p msg = true -> origin_id am.2 <> pid p)
    as Hnone.
  { intros am Ham E1 Hb E2.
    destruct (probe_origin ids w i p am Hnd Hw Hp (Hrest _ Ham) E2)
      as (_ & _ & Hf & _).
    apply (Hclash am Ham E1 E2). by eapply flag_other. }
  destruct (handle_message_cases p msg)
    as [E|[(Hc & [(Hb & E)|[(Hb & Hrad & E)|(Hb & Hrad & E)]])|(Hk & _ & E)]];
    rewrite E in Hprocs, Hfl'; clear E; cbn [fst snd] in Hprocs, Hfl'.
  - (* killed *)
    rewrite list_insert_id in Hprocs by done.
    unfold deliveries in Hfl'. simpl in Hfl'. rewrite app_nil_r in Hfl'.
    unfold election_inv. rewrite Hfl', Hprocs.
    split; [by apply Forall_forall|]. split; [done|]. done.
  - (* one flag recorded *)
    apply confirms_spec in Hc as [Ho Hret].
    unfold deliveries in Hfl'. simpl in Hfl'. rewrite app_nil_r in Hfl'.
    unfold election_inv. rewrite Hfl', Hprocs.
    split; [|split; [done|]].
    + apply Forall_forall. intros am Ham.
      apply (probe_ok_insert ids _ i p); [done| |by apply Hrest].
      intros E1 E2 E3 E4.
      assert (direction am.2 <> direction msg) as Hdir by by apply Hclash.
      destruct (direction msg), (direction am.2); simpl in *; done.
    + apply (max_preserved ids _ i p); [done..|].
      destruct (direction msg); simpl; congruence.
  - (* leader *)
    apply confirms_spec in Hc as [Ho Hret].
    unfold deliveries in Hfl'. simpl in Hfl'. rewrite app_nil_r in Hfl'.
    unfold election_inv. rewrite Hfl', Hprocs.
    split; [|split; [done|]].
    + apply Forall_forall. intros am Ham.
      apply (probe_ok_insert ids _ i p); [done| |by apply Hrest].
      intros E1 _ _ _. by destruct (Hnone am Ham Ho Hb).
    + apply (max_preserved ids _ i p); [done..|]. simpl. intros _.
      destruct (probe_origin ids w i p (i, msg) Hnd Hw Hp Hmsg Ho)
        as (_ & _ & _ & Hdom).
      apply (dominated_full ids (direction msg) (Z.of_nat i) (2 ^ phase p));
        [|by apply Hdom].
      destruct Hok as (_ & _ & _ & _ & <- & _). done.
  - (* next phase *)
    apply confirms_spec in Hc as [Ho Hret].
    set (p1 := set_confirm_right false _) in *.
    assert (proc_ok ids i p1) as Hok1 by by apply proc_ok_advance.
    rewrite (deliveries_start_phase ids i p1) in Hfl'
      by (done || by rewrite start_phase_eq).
    rewrite start_phase_eq in Hprocs. cbn [fst] in Hprocs.
    set (p' := set_message_counter _ p1) in *.
    assert (processes w' !! i = Some p') as Hp'
      by by rewrite Hprocs, list_lookup_insert_eq.
    assert (proc_ok ids i p') as Hok' by apply Hok1.
    unfold election_inv. rewrite Hfl'.
    split; [|split].
    + apply Forall_app. split.
      * apply Forall_forall. intros am Ham. rewrite Hprocs.
        apply (probe_ok_insert ids _ i p); [done| |by apply Hrest].
        intros E1 _ _ _. by destruct (Hnone am Ham Ho Hb).
      * repeat constructor.
        -- apply (probe_ok_fresh ids (processes w') i p' LEFT); done.
        -- apply (probe_ok_fresh ids (processes w') i p' RIGHT); done.
    + rewrite fmap_app. apply NoDup_app. split; [done|]. split.
      * intros ky Hky Hky'. apply list_elem_of_fmap in Hky as (am & -> & Ham).
        apply (Hnone am Ham Ho Hb). unfold key in Hky'. simpl in Hky'.
        rewrite !elem_of_cons in Hky'.
        destruct Hky' as [E|[E|E]]; [by injection E|by injection E|].
        by apply elem_of_nil in E.
      * simpl. unfold key. simpl. apply NoDup_cons. split.
        -- rewrite elem_of_cons. intros [E|E]; [done|by apply elem_of_nil in E].
        -- apply NoDup_singleton.
    + rewrite Hprocs. apply (max_preserved ids _ i p); [done..|].
      simpl. congruence.
  - (* forwarded *)
    rewrite (deliveries_forward ids i p) in Hfl' by done.
    unfold election_inv. rewrite Hfl', Hprocs.
    split; [|split].
    + apply Forall_app. split.
      * apply Forall_forall. intros am Ham.
        apply (probe_ok_insert ids _ i p); [done| |by apply Hrest]. done.
      * repeat constructor.
        apply (probe_ok_insert ids _ i p); [done|done|].
        by apply (probe_ok_hop ids _ i p).
    + rewrite fmap_app. simpl. rewrite (hop_key (inbox p)).
      rewrite <- Permutation_cons_append. by apply NoDup_cons.
    + apply (max_preserved ids _ i p); [done..|]. simpl. congruence.
Qed.

Lemma reachable_election_inv ids w :
  NoDup ids -> reachable ids w -> election_inv ids w.
Proof.
  intros Hnd. induction 1 as [|w a w' Hw IH Hstep].
  - apply election_inv_init.
  - destruct a; [by eapply election_inv_start|by eapply election_inv_iter].
Qed.

(** ** Runs *)

Lemma run_schedule_reachable ids acts w w' :
  reachable ids w -> run_schedule acts w = Some w' -> reachable ids w'.
Proof.
  revert w. induction acts as [|a acts IH]; intros w Hw H; simpl in H.
  - by simplify_eq.
  - apply bind_Some in H as (w1 & H1 & H2).
    eapply IH; [|done]. by econstructor.
Qed.

Lemma world_after_reachable ids acts :
  is_Some (run_schedule acts (main_world ids)) ->
  reachable ids (world_after ids acts).
Proof.
  intros [w Hw]. unfold world_after. rewrite Hw. simpl.
  eapply run_schedule_reachable; [constructor|done].
Qed.

Lemma perform_stop p effs w w' :
  perform p effs w = Some w' ->
  stop_event w' = true -> stop_event w = true \/ StopEventSet ∈ effs.
Proof.
  revert w. induction effs as [|[q msg|] effs IH]; intros w H Hs; simpl in H.
  - simplify_eq. by left.
  - apply bind_Some in H as (a & Ha & H).
    apply bind_Some in H as (qs & Hqs & H).
    destruct (IH _ H Hs) as [?|?]; [by left|right; by right].
  - right. by left.
Qed.

(** The event is set only by a process that declares itself leader, and
    such a process takes no further step. *)
Lemma reachable_stop_event ids w :
  reachable ids w ->
  stop_event w = true ->
  exists i p, processes w !! i = Some p /\ running p = false.
Proof.
  induction 1 as [|w a w' Hw IH Hstep]; [done|]. intros Hs.
  assert (forall i p p', processes w !! i = Some p ->
            processes w' = <[i := p']> (processes w) ->
            (in_loop p = true -> running p = true) ->
            stop_event w = true ->
            exists j pj, processes w' !! j = Some pj /\ running pj = false)
    as Hkeep.
  { intros i p p' Hp Hprocs Hrun Hs0.
    destruct (IH Hs0) as (j & pj & Hj & Hrj). exists j, pj. split; [|done].
    rewrite Hprocs. rewrite list_lookup_insert_ne; [done|]. intros ->.
    rewrite Hp in Hj. injection Hj as <-.
    destruct (reachable_proc_ok _ _ _ _ Hw Hp)
      as (_ & _ & _ & _ & _ & _ & I7 & _).
    destruct (in_loop p) eqn:E; [|destruct (I7 eq_refl) as (_ & _ & _ & ?)];
      [specialize (Hrun eq_refl)|]; congruence. }
  destruct a as [i|i k]; unfold step in Hstep.
  - apply bind_Some in Hstep as (p & Hp & Hstep).
    destruct (in_loop p) eqn:Hl; [done|].
    rewrite start_phase_eq in Hstep.
    pose proof (perform_spec _ _ _ _ Hstep) as (Hprocs & _).
    destruct (perform_stop _ _ _ _ Hstep Hs) as [Hs0|Hin].
    + eapply Hkeep; [done|done|congruence|done].
    + rewrite !elem_of_cons in Hin. destruct Hin as [?|[?|Hin]]; [done..|].
      by apply elem_of_nil in Hin.
  - apply bind_Some in Hstep as (p & Hp & Hstep).
    destruct (in_loop p) eqn:Hl; [|done].
    destruct (running p) eqn:Hr; [|done].
    apply bind_Some in Hstep as (q & Hq & Hstep).
    apply bind_Some in Hstep as (msg & Hk & Hstep).
    destruct (handle_message p msg) as [p' effs] eqn:Hh.
    pose proof (perform_spec _ _ _ _ Hstep) as (Hprocs & _).
    destruct (perform_stop _ _ _ _ Hstep Hs) as [Hs0|Hin].
    + eapply Hkeep; [done|done|done|done].
    + exists i, p'. split.
      { rewrite Hprocs. simpl. apply list_lookup_insert_eq.
        by eapply lookup_lt_Some. }
      destruct (handle_message_cases p msg)
        as [E|[(Hc & [(Hb & E)|[(Hb & Hrad & E)|(Hb & Hrad & E)]])|(_ & _ & E)]];
        try rewrite start_phase_eq in E; rewrite E in Hh; simplify_eq;
        try done.
      * by apply elem_of_nil in Hin.
      * by apply elem_of_nil in Hin.
      * rewrite !elem_of_cons in Hin. destruct Hin as [?|[?|Hin]]; [done..|].
        by apply elem_of_nil in Hin.
      * rewrite !elem_of_cons in Hin. destruct Hin as [?|Hin]; [done|].
        by apply elem_of_nil in Hin.
Qed.

(** ** [max(ids)] *)

Lemma foldl_max_spec l a :
  foldl Z.max a l ∈ a :: l /\ forall y, y ∈ a :: l -> y <= foldl Z.max a l.
Proof.
  revert a. induction l as [|b l IH]; intros a; simpl.
  - split; [by left|]. intros y Hy. apply list_elem_of_singleton in Hy. lia.
  - destruct (IH (Z.max a b)) as [Hin Hle]. split.
    + apply elem_of_cons in Hin as [Hin|Hin]; [|by right; right].
      rewrite Hin. destruct (Z.max_spec a b) as [[_ ->]|[_ ->]];
        [right; by left|by left].
    + intros y Hy. rewrite !elem_of_cons in Hy.
      destruct Hy as [->|[->|Hy]].
      * transitivity (Z.max a b); [lia|]. apply Hle. by left.
      * transitivity (Z.max a b); [lia|]. apply Hle. by left.
      * apply Hle. by right.
Qed.

Lemma max_id_unique ids x :
  x ∈ ids -> (forall y, y ∈ ids -> y <= x) -> x = max_id ids.
Proof.
  destruct ids as [|a l]; [by intros ?%elem_of_nil|]. intros Hx Hle.
  unfold max_id. destruct (foldl_max_spec l a) as [Hin Hmax].
  specialize (Hle _ Hin). specialize (Hmax _ Hx). lia.
Qed.

(** ** The prompts of [main] *)

Lemma read_N_spec lines N rest :
  read_N lines = Some (N, rest) -> 2 <= N.
Proof.
  induction lines as [|[z|] lines IH]; simpl; [done| |done].
  destruct (Z.ltb_spec z 2); [done|]. intros [= <- <-]. lia.
Qed.

Lemma read_ids_spec N lines ids0 ids rest :
  read_ids N ids0 lines = Some (ids, rest) ->
  NoDup ids0 -> Forall (fun x => 0 < x) ids0 -> Z.of_nat (length ids0) <= N ->
  NoDup ids /\ Forall (fun x => 0 < x) ids /\ Z.of_nat (length ids) = N.
Proof.
  revert ids0. induction lines as [|[z|] lines IH]; intros ids0; simpl;
    destruct (Z.ltb_spec (Z.of_nat (length ids0)) N) as [Hlt|Hge];
    try done; try (intros [= <- <-] ? ? ?; repeat split; try done; lia).
  - destruct (Z.leb_spec z 0) as [Hz|Hz]; [apply IH|].
    case_bool_decide as Hin; [apply IH|].
    intros H Hnd Hpos Hlen. apply (IH _ H).
    + apply NoDup_app. split; [done|]. split; [|apply NoDup_singleton].
      intros x Hx ->%list_elem_of_singleton. done.
    + apply Forall_app. split; [done|]. by repeat constructor.
    + rewrite length_app. simpl. lia.
  - apply IH.
Qed.

Lemma read_N_unread lines N rest :
  read_N (int_of <$> lines) = Some (N, rest) ->
  exists pre,
    lines = pre ++ Number N :: unread lines rest
    /\ int_of <$> unread lines rest = rest
    /\ 2 <= N
    /\ Forall (fun l => forall z, l = Number z -> z < 2) pre.
Proof.
  unfold unread. induction lines as [|l lines IH]; simpl; [done|].
  assert (read_N (int_of <$> lines) = Some (N, rest) ->
          exists pre,
            l :: lines
            = (l :: pre)
              ++ Number N
                 :: drop (S (length lines) - length rest) (l :: lines)
            /\ int_of <$> drop (S (length lines) - length rest) (l :: lines)
               = rest
            /\ 2 <= N
            /\ Forall (fun l => forall z, l = Number z -> z < 2) pre) as Hskip.
  { intros H. destruct (IH H) as (pre & Hl & Hr & HN & Hpre). exists pre.
    assert (length rest <= length lines)%nat as Hle.
    { rewrite <- Hr, length_fmap, length_drop. lia. }
    replace (S (length lines) - length rest)%nat
      with (S (length lines - length rest)) by lia.
    simpl. split; [by rewrite <- Hl|]. done. }
  destruct l as [z| | |]; simpl.
  - destruct (Z.ltb_spec z 2) as [Hlt|Hge].
    + intros H. destruct (Hskip H) as (pre & Hl & Hr & HN & Hpre).
      exists (Number z :: pre). repeat split; try done.
      constructor; [|done]. by intros ? [= <-].
    + intros [= <- <-]. exists []. rewrite length_fmap.
      replace (S (length lines) - length lines)%nat with 1%nat by lia.
      simpl. rewrite drop_0. repeat split; try done; try lia.
  - intros H. destruct (Hskip H) as (pre & Hl & Hr & HN & Hpre).
    exists (Yes :: pre). repeat split; try done. by constructor.
  - intros H. destruct (Hskip H) as (pre & Hl & Hr & HN & Hpre).
    exists (No :: pre). repeat split; try done. by constructor.
  - intros H. destruct (Hskip H) as (pre & Hl & Hr & HN & Hpre).
    exists (Other :: pre). repeat split; try done. by constructor.
Qed.

Lemma read_choice_spec lines random rest :
  read_choice lines = Some (random, rest) ->
  exists pre,
    lines = pre ++ (if random then Yes else No) :: rest
    /\ Forall (fun l => l <> Yes /\ l <> No) pre.
Proof.
  induction lines as [|l lines IH]; simpl; [done|].
  assert (l <> Yes -> l <> No ->
          read_choice lines = Some (random, rest) ->
          exists pre,
            l :: lines = pre ++ (if random then Yes else No) :: rest
            /\ Forall (fun l => l <> Yes /\ l <> No) pre) as Hskip.
  { intros H1 H2 H. destruct (IH H) as (pre & -> & Hpre).
    exists (l :: pre). split; [done|]. by constructor. }
  destruct l; try (by apply Hskip);
    intros [= <- <-]; exists []; by split.
Qed.

Lemma main_ids_inv draw lines N ids :
  main_ids draw lines = Some (N, ids) ->
  exists pre1 pre2 rest (random : bool),
    lines = pre1 ++ Number N :: pre2 ++ (if random then Yes else No) :: rest
    /\ Forall (fun l => forall z, l = Number z -> z < 2) pre1
    /\ 2 <= N
    /\ Forall (fun l => l <> Yes /\ l <> No) pre2
    /\ if random then sample_ok N draw /\ ids = draw
       else exists left, read_ids N [] (int_of <$> rest) = Some (ids, left).
Proof.
  unfold main_ids. intros H.
  apply bind_Some in H as ([N' rest1] & HN & H).
  apply bind_Some in H as ([random rest2] & Hc & H).
  apply read_N_unread in HN as (pre1 & Hl & _ & HN & Hpre1).
  apply read_choice_spec in Hc as (pre2 & Hu & Hpre2).
  rewrite Hu in Hl. exists pre1, pre2, rest2, random.
  destruct random.
  - case_bool_decide as Hs; [|done]. injection H as <- <-. done.
  - apply bind_Some in H as ([ids' left] & Hids & H). injection H as <- <-.
    repeat split; try done. by exists left.
Qed.

Lemma main_ids_spec draw lines N ids :
  main_ids draw lines = Some (N, ids) ->
  2 <= N /\ Z.of_nat (length ids) = N /\ NoDup ids
  /\ Forall (fun x => 0 < x) ids.
Proof.
  intros H.
  apply main_ids_inv in H as (pre1 & pre2 & rest & random & _ & _ & HN & _ & H).
  destruct random.
  - destruct H as ((Hlen & Hnd & Hrange) & ->). repeat split; try done.
    eapply Forall_impl; [exact Hrange|]. simpl. intros x Hx. lia.
  - destruct H as (left & Hids).
    apply read_ids_spec in Hids as (? & ? & ?);
      [done|constructor|constructor|simpl; lia].
Qed.

(** ** The election *)

(** C1: on a ring of at least two unique identifiers, in every world that a
    run can reach, a process that has reached TERMINATED carries the maximum
    identifier, so no process with another identifier ever reaches it; at
    most one process has reached it; and the termination signal is set only
    once some process has reached it. *)
Theorem unique_leader_is_maximum (ids : list Z) (w : World) :
  NoDup ids ->
  (2 <= length ids)%nat ->
  reachable ids w ->
  (forall i p, processes w !! i = Some p -> terminated p ->
               pid p = max_id ids)
  /\ (forall i j p q,
        processes w !! i = Some p -> processes w !! j = Some q ->
        terminated p -> terminated q -> i = j)
  /\ (stop_event w = true ->
      exists i p, processes w !! i = Some p /\ terminated p).
Proof.
  intros Hnd _ Hw.
  destruct (reachable_election_inv ids w Hnd Hw) as (_ & _ & Hmax).
  assert (forall i p, processes w !! i = Some p -> terminated p ->
                      pid p = max_id ids) as Hleader.
  { intros i p Hp Ht. apply max_id_unique; [|by eapply Hmax].
    destruct (reachable_proc_ok _ _ _ _ Hw Hp) as (Hi & _).
    by eapply list_elem_of_lookup_2. }
  split; [done|]. split.
  - intros i j p q Hp Hq Htp Htq.
    apply (origin_unique ids w i j p q); try done.
    by rewrite (Hleader _ _ Hp Htp), (Hleader _ _ Hq Htq).
  - apply (reachable_stop_event ids w Hw).
Qed.

Lemma unique_leader_is_maximum_witness :
  terminated (process_at (world_after ring37192 schedule37192) 3)
  /\ pid (process_at (world_after ring37192 schedule37192) 3)
     = max_id ring37192
  /\ (forall j q,
        processes (world_after ring37192 schedule37192) !! j = Some q ->
        terminated q -> j = 3%nat)
  /\ stop_event (world_after ring37192 schedule37192) = true.
Proof.
  assert (NoDup ring37192) as Hnd.
  { apply (bool_decide_unpack _). vm_compute. exact I. }
  assert (2 <= length ring37192)%nat as Hlen by (simpl; lia).
  assert (reachable ring37192 (world_after ring37192 schedule37192)) as Hw.
  { apply world_after_reachable. vm_compute. eexists. reflexivity. }
  destruct (unique_leader_is_maximum ring37192
              (world_after ring37192 schedule37192) Hnd Hlen Hw)
    as (Hmax & Hone & _).
  assert (processes (world_after ring37192 schedule37192) !! 3%nat
          = Some (process_at (world_after ring37192 schedule37192) 3)) as Hp
    by (vm_compute; reflexivity).
  assert (terminated (process_at (world_after ring37192 schedule37192) 3))
    as Ht by (vm_compute; reflexivity).
  split; [exact Ht|]. split; [exact (Hmax _ _ Hp Ht)|].
  split; [|vm_compute; reflexivity].
  intros j q Hq Htq. exact (Hone _ _ _ _ Hq Hp Htq Ht).
Defined.

(** C2: the terminating phase. A process that can handle a message and sees
    both flags confirmed by it reaches TERMINATED exactly when the radius of
    its phase covers the ring size, staying in that phase, and otherwise
    moves on to the next phase; and in every reachable world a process that
    has reached TERMINATED is in the smallest phase whose radius is at least
    the number of processes. *)
Theorem termination_radius (ids : list Z) (w : World) (i : nat) (p : Process) :
  reachable ids w ->
  processes w !! i = Some p ->
  (terminated p ->
   Z.of_nat (length ids) <= 2 ^ phase p
   /\ forall k, 0 <= k < phase p -> 2 ^ k < Z.of_nat (length ids))
  /\ (forall msg,
        running p = true ->
        confirms p msg = true ->
        both_confirmed_with p msg = true ->
        (terminated (fst (handle_message p msg))
         <-> Z.of_nat (length ids) <= 2 ^ phase p)
        /\ (terminated (fst (handle_message p msg)) ->
            phase (fst (handle_message p msg)) = phase p)
        /\ (~ terminated (fst (handle_message p msg)) ->
            phase (fst (handle_message p msg)) = phase p + 1)).
Proof.
  intros Hw Hp.
  destruct (reachable_proc_ok _ _ _ _ Hw Hp)
    as (_ & _ & _ & _ & Hn & Hph & _ & Hprev & Hterm).
  rewrite <- Hn. split.
  - intros Ht. destruct (Hterm Ht) as (Hge & _). split; [done|].
    intros k Hk. assert (0 < phase p) as Hpos by lia.
    specialize (Hprev Hpos).
    assert (2 ^ k <= 2 ^ (phase p - 1)) by (apply Z.pow_le_mono_r; lia). lia.
  - intros msg Hr Hc Hb. unfold terminated.
    rewrite handle_message_confirm by done. rewrite Hb. simpl.
    destruct (Z.geb_spec (2 ^ phase p) (ring_size p)) as [Hge|Hlt].
    + destruct (direction msg); simpl; repeat split; try done; try lia.
    + rewrite start_phase_eq.
      destruct (direction msg); simpl; rewrite Hr;
        repeat split; try done; try lia.
Qed.

Lemma termination_radius_witness :
  terminated (process_at (world_after ring37192 schedule37192) 3)
  /\ phase (process_at (world_after ring37192 schedule37192) 3) = 3
  /\ Z.of_nat (length ring37192)
     <= 2 ^ phase (process_at (world_after ring37192 schedule37192) 3)
  /\ forall k,
       0 <= k < phase (process_at (world_after ring37192 schedule37192) 3) ->
       2 ^ k < Z.of_nat (length ring37192).
Proof.
  assert (reachable ring37192 (world_after ring37192 schedule37192)) as Hw.
  { apply world_after_reachable. vm_compute. eexists. reflexivity. }
  assert (processes (world_after ring37192 schedule37192) !! 3%nat
          = Some (process_at (world_after ring37192 schedule37192) 3)) as Hp
    by (vm_compute; reflexivity).
  assert (terminated (process_at (world_after ring37192 schedule37192) 3))
    as Ht by (vm_compute; reflexivity).
  destruct (termination_radius ring37192
              (world_after ring37192 schedule37192) 3%nat _ Hw Hp)
    as (Hleast & _).
  split; [exact Ht|]. split; [vm_compute; reflexivity|]. exact (Hleast Ht).
Defined.

(** C4: the probes of a phase. [start_phase] puts exactly two messages, the
    first on the left queue tagged LEFT and the second on the right queue
    tagged RIGHT, both with the sender as origin, the sender's phase, distance
    2^phase and not returning, and counts two sends. For the process at
    position [i] of a reachable world the two queues are the inboxes of the
    processes at positions [(i - 1) mod n] and [(i + 1) mod n]. At both call
    sites the flags are false: in [run] the process has not yet handled any
    message, and [handle_message] calls [start_phase] on the object in which
    it has just reset both flags and incremented the phase. *)
Theorem start_phase_sends_two_probes (ids : list Z) (w : World) (i : nat)
    (p : Process) :
  reachable ids w ->
  processes w !! i = Some p ->
  (forall q,
     start_phase q
     = (set_message_counter (message_counter q + 2) q,
        [Put LeftQueue (mkMessage (pid q) LEFT (phase q) (2 ^ phase q) false);
         Put RightQueue (mkMessage (pid q) RIGHT (phase q) (2 ^ phase q) false)]))
  /\ (exists l r,
        processes w !! ring_left (length ids) i = Some l
        /\ processes w !! ring_right (length ids) i = Some r
        /\ resolve p LeftQueue = Some (inbox l)
        /\ resolve p RightQueue = Some (inbox r))
  /\ (in_loop p = false -> confirm_left p = false /\ confirm_right p = false)
  /\ (forall msg,
        confirms p msg = true ->
        both_confirmed_with p msg = true ->
        2 ^ phase p < ring_size p ->
        exists p1,
          handle_message p msg = start_phase p1
          /\ pid p1 = pid p /\ phase p1 = phase p + 1
          /\ confirm_left p1 = false /\ confirm_right p1 = false).
Proof.
  intros Hw Hp. split; [apply start_phase_eq|].
  pose proof (reachable_proc_ok _ _ _ _ Hw Hp) as Hok.
  destruct Hok as (Hi & _ & Hl & Hr & _ & _ & Hfresh & _).
  pose proof (lookup_lt_Some _ _ _ Hi) as Hlt.
  destruct (reachable_evolves _ _ Hw) as (Hlen & _ & _).
  split; [|split].
  - destruct (lookup_lt_is_Some_2 (processes w) (ring_left (length ids) i))
      as [l Hl']; [rewrite Hlen; by apply ring_left_lt|].
    destruct (lookup_lt_is_Some_2 (processes w) (ring_right (length ids) i))
      as [r Hr']; [rewrite Hlen; by apply ring_right_lt|].
    exists l, r. split; [done|]. split; [done|]. simpl.
    destruct (reachable_proc_ok _ _ _ _ Hw Hl') as (_ & -> & _).
    destruct (reachable_proc_ok _ _ _ _ Hw Hr') as (_ & -> & _).
    done.
  - intros Hloop. by destruct (Hfresh Hloop) as (_ & ? & ? & _).
  - intros msg Hc Hb Hrad. eexists. split.
    + rewrite handle_message_confirm by done. simpl. rewrite Hb.
      destruct (Z.geb_spec (2 ^ phase p) (ring_size p)); [lia|]. reflexivity.
    + by destruct (direction msg).
Qed.

Lemma start_phase_sends_two_probes_witness :
  start_phase (process_at (main_world ring51) 0)
  = (set_message_counter 2 (process_at (main_world ring51) 0),
     [Put LeftQueue (mkMessage 5 LEFT 0 1 false);
      Put RightQueue (mkMessage 5 RIGHT 0 1 false)])
  /\ resolve (process_at (main_world ring51) 0) LeftQueue = Some 1%nat
  /\ confirm_left (process_at (main_world ring51) 0) = false
  /\ confirm_right (process_at (main_world ring51) 0) = false.
Proof.
  destruct (start_phase_sends_two_probes ring51 (main_world ring51) 0%nat
              (process_at (main_world ring51) 0))
    as (Hsend & _ & Hflags & _); [constructor|reflexivity|].
  split; [apply Hsend|]. split; [reflexivity|]. apply Hflags. reflexivity.
Defined.




Lemma outbound_distance_positive_witness :
  0 <= distance (mkMessage 5 LEFT 1 1 false)
  /\ (returning (mkMessage 5 LEFT 1 1 false) = false ->
      1 <= distance (mkMessage 5 LEFT 1 1 false)
      /\ 0 <= distance (hop (mkMessage 5 LEFT 1 1 false)))
  /\ (returning (mkMessage 5 LEFT 1 1 false) = true ->
      distance (mkMessage 5 LEFT 1 1 false) = 0).
Proof.
  apply (outbound_distance_positive ring51
           (world_after ring51 schedule51_outbound) 0%nat).
  - apply world_after_reachable. vm_compute. eexists. reflexivity.
  - vm_compute. left.
Defined.

Lemma phase_counter_monotone_witness :
  phase (Process_init 5 2 0%nat)
  <= phase (handle_all (Process_init 5 2 0%nat)
              [mkMessage 1 LEFT 0 1 false; mkMessage 5 LEFT 0 0 true;
               mkMessage 5 RIGHT 0 0 true]).
Proof.
  destruct phase_counter_monotone as (_ & _ & H). apply H.
Defined.

(** * Further properties of the code *)

(** ** Accounting of messages *)

Lemma foldl_add_shift (l : list Z) a : foldl Z.add a l = a + foldl Z.add 0 l.
Proof.
  revert a. induction l as [|x l IH]; intros a; simpl; [lia|].
  rewrite (IH (a + x)), (IH (0 + x)). lia.
Qed.

Lemma total_insert (procs : list Process) i p p' :
  procs !! i = Some p ->
  foldl Z.add 0 (message_counter <$> <[i := p']> procs)
  = foldl Z.add 0 (message_counter <$> procs)
    - message_counter p + message_counter p'.
Proof.
  revert i. induction procs as [|p0 procs IH]; intros [|i] Hp; simplify_eq/=.
  - rewrite (foldl_add_shift _ (0 + message_counter p')),
      (foldl_add_shift _ (0 + message_counter p)). lia.
  - rewrite (foldl_add_shift _ (0 + message_counter p0)),
      (foldl_add_shift (_ <$> procs) (0 + message_counter p0)).
    rewrite (IH _ Hp). lia.
Qed.

Lemma deliveries_put p q msg a effs :
  resolve p q = Some a ->
  deliveries p (Put q msg :: effs) = (a, msg) :: deliveries p effs.
Proof. intros Ha. unfold deliveries. simpl. by rewrite Ha. Qed.

Lemma deliveries_stop p effs :
  deliveries p (StopEventSet :: effs) = deliveries p effs.
Proof. reflexivity. Qed.

Lemma perform_puts p effs w w' :
  perform p effs w = Some w' ->
  Z.of_nat (length (deliveries p effs)) = puts effs.
Proof.
  revert w. induction effs as [|[q msg|] effs IH]; intros w H; simpl in H.
  - done.
  - apply bind_Some in H as (a & Ha & H).
    apply bind_Some in H as (qs & Hqs & H).
    rewrite (deliveries_put _ _ _ _ _ Ha). specialize (IH _ H).
    simpl. lia.
  - rewrite deliveries_stop. simpl. by eapply IH.
Qed.

Lemma handle_message_puts p msg :
  message_counter (fst (handle_message p msg))
  = message_counter p + puts (snd (handle_message p msg)).
Proof.
  destruct (handle_message_cases p msg)
    as [E|[(Hc & [(Hb & E)|[(Hb & Hrad & E)|(Hb & Hrad & E)]])|(_ & _ & E)]];
    try rewrite start_phase_eq in E; rewrite E; simpl; try lia.
  destruct (direction msg); simpl; lia.
Qed.

Lemma step_start_perform i w w' :
  step (RunStart i) w = Some w' <->
  exists p,
    processes w !! i = Some p
    /\ in_loop p = false
    /\ perform (set_in_loop true (fst (start_phase p))) (snd (start_phase p))
         (mkWorld (<[i := set_in_loop true (fst (start_phase p))]> (processes w))
                  (queues w) (stop_event w))
       = Some w'.
Proof.
  unfold step. rewrite bind_Some. split.
  - intros (p & Hp & H). exists p. destruct (in_loop p); [done|].
    by destruct (start_phase p).
  - intros (p & Hp & Hl & H). exists p. rewrite Hl.
    by destruct (start_phase p).
Qed.

Lemma step_iter_perform i k w w' :
  step (RunIteration i k) w = Some w' <->
  exists p q msg,
    processes w !! i = Some p
    /\ in_loop p = true
    /\ running p = true
    /\ queues w !! inbox p = Some q
    /\ q !! k = Some msg
    /\ perform (fst (handle_message p msg)) (snd (handle_message p msg))
         (mkWorld (<[i := fst (handle_message p msg)]> (processes w))
                  (<[inbox p := delete k q]> (queues w)) (stop_event w))
       = Some w'.
Proof.
  unfold step. rewrite bind_Some. split.
  - intros (p & Hp & H). exists p.
    destruct (in_loop p); [|done]. destruct (running p); [|done].
    apply bind_Some in H as (q & Hq & H).
    apply bind_Some in H as (msg & Hk & H). exists q, msg.
    by destruct (handle_message p msg).
  - intros (p & q & msg & Hp & Hl & Hr & Hq & Hk & H). exists p.
    split; [done|]. rewrite Hl, Hr. simpl.
    apply bind_Some. exists q. split; [done|].
    apply bind_Some. exists msg. split; [done|].
    by destruct (handle_message p msg).
Qed.

Lemma step_audit a w w' :
  step a w = Some w' ->
  total_messages w' - Z.of_nat (length (in_flight w'))
  = total_messages w - Z.of_nat (length (in_flight w)) + received [a].
Proof.
  unfold total_messages. destruct a as [i|i k]; intros Hstep.
  - pose proof Hstep as Hinv.
    apply step_start_inv in Hinv as (p & Hp & _ & -> & _ & Hfl).
    apply step_start_perform in Hstep as (p' & Hp' & _ & Hperf).
    rewrite Hp in Hp'. injection Hp' as <-.
    apply perform_puts in Hperf.
    rewrite (total_insert _ _ _ _ Hp), Hfl, length_app, Nat2Z.inj_add, Hperf.
    rewrite start_phase_eq. simpl. lia.
  - apply step_iter_perform in Hstep
      as (p & q & msg & Hp & _ & _ & Hq & Hk & Hperf).
    pose proof (perform_puts _ _ _ _ Hperf) as Hputs.
    apply perform_spec in Hperf as (-> & _ & Hfl'). simpl.
    unfold in_flight in Hfl' at 2. simpl in Hfl'.
    pose proof (in_flight_from_get _ _ _ _ _ Hq Hk) as Hfl.
    fold (in_flight w) in Hfl.
    rewrite (total_insert _ _ _ _ Hp), Hfl, Hfl', length_app, Nat2Z.inj_add.
    rewrite Hputs, handle_message_puts. simpl length. lia.
Qed.

Lemma run_schedule_audit acts w w' :
  run_schedule acts w = Some w' ->
  total_messages w' - Z.of_nat (length (in_flight w'))
  = total_messages w - Z.of_nat (length (in_flight w)) + received acts.
Proof.
  revert w. induction acts as [|a acts IH]; intros w H; simpl in H.
  - simplify_eq. simpl. lia.
  - apply bind_Some in H as (w1 & H1 & H2).
    rewrite (IH _ H2), (step_audit _ _ _ H1). destruct a; simpl; lia.
Qed.

Lemma total_messages_main_world ids : total_messages (main_world ids) = 0.
Proof.
  unfold total_messages.
  assert (forall procs : list Process,
            Forall (fun p => message_counter p = 0) procs ->
            foldl Z.add 0 (message_counter <$> procs) = 0) as Hzero.
  { induction 1 as [|p procs Hp _ IH]; simpl; [done|]. by rewrite Hp. }
  apply Hzero, Forall_forall. intros p Hp.
  apply list_elem_of_lookup in Hp as [i Hi].
  by apply main_world_lookup in Hi as (x & _ & ->).
Qed.

(** X1: the closed-system audit of messages. After any schedule, the total
    that [main] prints, the sum of the [message_counter]s, equals the number
    of messages taken out of an inbox by a loop iteration plus the number
    still sitting in the queues: no message is lost and none is counted or
    delivered twice. *)
Theorem message_audit (ids : list Z) (acts : list Action) (w : World) :
  run_schedule acts (main_world ids) = Some w ->
  total_messages w = received acts + Z.of_nat (length (in_flight w)).
Proof.
  intros H. apply run_schedule_audit in H.
  rewrite total_messages_main_world, in_flight_main_world in H. simpl in H. lia.
Qed.

Lemma message_audit_witness :
  total_messages (world_after ring37192 schedule37192) = 67
  /\ received schedule37192 = 67
  /\ in_flight (world_after ring37192 schedule37192) = [].
Proof.
  pose proof (message_audit ring37192 schedule37192
                (world_after ring37192 schedule37192)) as H.
  assert (received schedule37192 = 67) as Hr by (vm_compute; reflexivity).
  assert (in_flight (world_after ring37192 schedule37192) = []) as Hf
    by (vm_compute; reflexivity).
  rewrite Hr, Hf in H. split; [|split; assumption].
  apply H. vm_compute. reflexivity.
Defined.

(** ** Threads and their queues *)

Lemma handle_message_frame p msg :
  pid (fst (handle_message p msg)) = pid p
  /\ ring_size (fst (handle_message p msg)) = ring_size p
  /\ inbox (fst (handle_message p msg)) = inbox p
  /\ left_queue (fst (handle_message p msg)) = left_queue p
  /\ right_queue (fst (handle_message p msg)) = right_queue p
  /\ active (fst (handle_message p msg)) = active p
  /\ in_loop (fst (handle_message p msg)) = in_loop p.
Proof.
  destruct (handle_message_cases p msg)
    as [E|[(Hc & [(Hb & E)|[(Hb & Hrad & E)|(Hb & Hrad & E)]])|(_ & _ & E)]];
    try rewrite start_phase_eq in E; rewrite E; simpl; try done.
  by destruct (direction msg).
Qed.

Lemma perform_total p effs w :
  (forall q, exists a,
     resolve p q = Some a /\ (a < length (queues w))%nat) ->
  is_Some (perform p effs w).
Proof.
  revert w. induction effs as [|[q msg|] effs IH]; intros w Hres; simpl.
  - by eexists.
  - destruct (Hres q) as (a & Ha & Hlt). rewrite Ha. simpl.
    destruct (lookup_lt_is_Some_2 _ _ Hlt) as [q0 Hq0].
    unfold put. rewrite Hq0. simpl. apply IH. simpl.
    intros q'. destruct (Hres q') as (a' & Ha' & Hlt').
    exists a'. by rewrite length_insert.
  - apply IH. done.
Qed.

Lemma proc_ok_resolve ids i p q :
  proc_ok ids i p ->
  exists a, resolve p q = Some a /\ (a < length ids)%nat.
Proof.
  intros (Hi & _ & Hl & Hr & _).
  pose proof (lookup_lt_Some _ _ _ Hi) as Hlt.
  destruct q; simpl; eexists; (split; [done|]);
    [by apply ring_left_lt|by apply ring_right_lt].
Qed.

(** X2: no thread of a built ring ever fails on a queue. In every reachable
    world a thread that has not yet started can run its [start_phase], and a
    thread in its loop can handle the message at any position of its inbox:
    both queue attributes are set, they and the inbox name queues of the
    store, and every [put] succeeds. *)
Theorem threads_never_stuck (ids : list Z) (w : World) (i : nat) (p : Process) :
  reachable ids w ->
  processes w !! i = Some p ->
  (in_loop p = false -> is_Some (step (RunStart i) w))
  /\ exists q,
       queues w !! inbox p = Some q
       /\ forall k, (k < length q)%nat ->
                    in_loop p = true -> running p = true ->
                    is_Some (step (RunIteration i k) w).
Proof.
  intros Hw Hp.
  pose proof (reachable_proc_ok _ _ _ _ Hw Hp) as Hok.
  destruct (reachable_evolves _ _ Hw) as (_ & Hlen & _).
  assert (inbox p < length (queues w))%nat as Hin.
  { destruct Hok as (Hi & -> & _). rewrite Hlen. by eapply lookup_lt_Some. }
  split.
  - intros Hl.
    destruct (perform_total (set_in_loop true (fst (start_phase p)))
                (snd (start_phase p))
                (mkWorld (<[i := set_in_loop true (fst (start_phase p))]>
                            (processes w)) (queues w) (stop_event w)))
      as [w' Hw'].
    { intros q. cbn [queues]. rewrite Hlen. apply (proc_ok_resolve ids i).
      rewrite start_phase_eq. cbn [fst].
      destruct Hok as (I1 & I2 & I3 & I4 & I5 & I6 & I7 & I8 & I9).
      destruct (I7 Hl) as (J1 & J2 & J3 & J4).
      unfold proc_ok. simpl. repeat split; try done; congruence. }
    exists w'. apply step_start_perform. by exists p.
  - destruct (lookup_lt_is_Some_2 _ _ Hin) as [q Hq]. exists q.
    split; [done|]. intros k Hk Hl Hr.
    destruct (lookup_lt_is_Some_2 _ _ Hk) as [msg Hmsg].
    destruct (perform_total (fst (handle_message p msg))
                (snd (handle_message p msg))
                (mkWorld (<[i := fst (handle_message p msg)]> (processes w))
                         (<[inbox p := delete k q]> (queues w))
                         (stop_event w)))
      as [w' Hw'].
    { intros q'. simpl. rewrite length_insert, Hlen.
      destruct (proc_ok_resolve ids i p q' Hok) as (a & Ha & Hlt).
      exists a. split; [|done].
      destruct (handle_message_frame p msg) as (_ & _ & _ & El & Er & _).
      destruct q'; simpl in *; congruence. }
    exists w'. apply step_iter_perform. by exists p, q, msg.
Qed.

Lemma threads_never_stuck_witness :
  is_Some (step (RunStart 0) (main_world ring51)).
Proof.
  destruct (threads_never_stuck ring51 (main_world ring51) 0%nat
              (process_at (main_world ring51) 0)) as [H _];
    [constructor|reflexivity|].
  apply H. reflexivity.
Defined.

(** ** The end of the election *)

Lemma step_processes a w w' :
  step a w = Some w' ->
  exists i p p',
    processes w !! i = Some p
    /\ processes w' = <[i := p']> (processes w)
    /\ ((in_loop p = false /\ p' = set_in_loop true (fst (start_phase p)))
        \/ (in_loop p = true /\ running p = true
            /\ exists msg, p' = fst (handle_message p msg))).
Proof.
  destruct a as [i|i k]; intros Hstep.
  - apply step_start_inv in Hstep as (p & Hp & Hl & Hprocs & _).
    exists i, p, (set_in_loop true (fst (start_phase p))).
    split; [done|]. split; [done|]. by left.
  - apply step_iter_inv in Hstep
      as (p & msg & rest & Hp & Hl & Hr & _ & Hprocs & _).
    exists i, p, (fst (handle_message p msg)).
    split; [done|]. split; [done|]. right. split; [done|]. split; [done|].
    by exists msg.
Qed.

Lemma terminated_step ids w a w' i p :
  reachable ids w ->
  processes w !! i = Some p -> terminated p ->
  step a w = Some w' ->
  processes w' !! i = Some p.
Proof.
  intros Hw Hp Ht Hstep.
  apply step_processes in Hstep as (j & pj & p' & Hj & -> & Hcase).
  rewrite list_lookup_insert_ne; [done|]. intros ->.
  rewrite Hp in Hj. injection Hj as <-. unfold terminated in Ht.
  destruct Hcase as [(Hl & _)|(_ & Hr & _)]; [|congruence].
  destruct (reachable_proc_ok _ _ _ _ Hw Hp)
    as (_ & _ & _ & _ & _ & _ & I7 & _).
  destruct (I7 Hl) as (_ & _ & _ & ?). congruence.
Qed.

(** X3: TERMINATED is final. Once a process of a reachable world has
    declared itself leader, no schedule changes its object again: its loop
    has ended, so it handles no further message, sends nothing, and its
    phase, flags and message counter stay as they are. *)
Theorem leader_is_final (ids : list Z) (w w' : World) (acts : list Action)
    (i : nat) (p : Process) :
  reachable ids w ->
  processes w !! i = Some p ->
  terminated p ->
  run_schedule acts w = Some w' ->
  processes w' !! i = Some p.
Proof.
  revert w. induction acts as [|a acts IH]; intros w Hw Hp Ht H; simpl in H.
  - by simplify_eq.
  - apply bind_Some in H as (w1 & H1 & H2).
    apply (IH w1); try done.
    + by econstructor.
    + by eapply terminated_step.
Qed.

Lemma leader_is_final_witness :
  terminated (process_at (world_after ring912 schedule912) 0)
  /\ run_schedule afterwards912 (world_after ring912 schedule912)
     = Some (world_after ring912 (schedule912 ++ afterwards912))
  /\ message_counter
       (process_at (world_after ring912 (schedule912 ++ afterwards912)) 1)
     = message_counter (process_at (world_after ring912 schedule912) 1) + 1
  /\ processes (world_after ring912 (schedule912 ++ afterwards912)) !! 0%nat
     = Some (process_at (world_after ring912 schedule912) 0).
Proof.
  assert (run_schedule afterwards912 (world_after ring912 schedule912)
          = Some (world_after ring912 (schedule912 ++ afterwards912))) as Hrun
    by (vm_compute; reflexivity).
  split; [vm_compute; reflexivity|]. split; [exact Hrun|].
  split; [vm_compute; reflexivity|].
  apply (leader_is_final ring912 (world_after ring912 schedule912)
           (world_after ring912 (schedule912 ++ afterwards912))
           afterwards912 0%nat).
  - apply world_after_reachable. vm_compute. eexists. reflexivity.
  - vm_compute. reflexivity.
  - vm_compute. reflexivity.
  - exact Hrun.
Defined.

Lemma perform_stop_set p effs w w' :
  perform p effs w = Some w' ->
  stop_event w = true \/ StopEventSet ∈ effs ->
  stop_event w' = true.
Proof.
  revert w. induction effs as [|[q msg|] effs IH]; intros w H Hs; simpl in H.
  - simplify_eq. destruct Hs as [?|Hs]; [done|]. by apply elem_of_nil in Hs.
  - apply bind_Some in H as (a & Ha & H).
    apply bind_Some in H as (qs & Hqs & H).
    apply (IH _ H). simpl. destruct Hs as [?|Hs]; [by left|right].
    apply elem_of_cons in Hs as [?|?]; done.
  - apply (IH _ H). simpl. by left.
Qed.

Lemma handle_message_declares p msg :
  running p = true ->
  running (fst (handle_message p msg)) = false ->
  snd (handle_message p msg) = [StopEventSet].
Proof.
  intros Hr.
  destruct (handle_message_cases p msg)
    as [E|[(Hc & [(Hb & E)|[(Hb & Hrad & E)|(Hb & Hrad & E)]])|(_ & _ & E)]];
    try rewrite start_phase_eq in E; rewrite E; simpl; try congruence.
  destruct (direction msg); simpl; congruence.
Qed.

Lemma step_stop_event_kept a w w' :
  step a w = Some w' -> stop_event w = true -> stop_event w' = true.
Proof.
  destruct a as [i|i k]; intros Hstep Hs.
  - apply step_start_perform in Hstep as (p & _ & _ & Hperf).
    apply (perform_stop_set _ _ _ _ Hperf). by left.
  - apply step_iter_perform in Hstep as (p & q & msg & _ & _ & _ & _ & _ & Hperf).
    apply (perform_stop_set _ _ _ _ Hperf). by left.
Qed.

Lemma reachable_terminated_stop ids w i p :
  reachable ids w ->
  processes w !! i = Some p -> running p = false ->
  stop_event w = true.
Proof.
  intros Hw. revert i p.
  induction Hw as [|w a w' Hw IH Hstep]; intros i p Hp Hr.
  - apply main_world_lookup in Hp as (x & _ & ->). done.
  - destruct a as [j|j k].
    + pose proof Hstep as Hperf.
      apply step_start_perform in Hperf as (pj & Hj & Hl & Hperf).
      pose proof (perform_spec _ _ _ _ Hperf) as (Hprocs & _).
      simpl in Hprocs. rewrite Hprocs in Hp.
      destruct (decide (j = i)) as [->|Hne].
      * rewrite list_lookup_insert_eq in Hp by by eapply lookup_lt_Some.
        injection Hp as <-. simpl in Hr.
        destruct (reachable_proc_ok _ _ _ _ Hw Hj)
          as (_ & _ & _ & _ & _ & _ & I7 & _).
        destruct (I7 Hl) as (_ & _ & _ & ?). congruence.
      * rewrite list_lookup_insert_ne in Hp by done.
        apply (step_stop_event_kept _ _ _ Hstep). exact (IH _ _ Hp Hr).
    + pose proof Hstep as Hperf.
      apply step_iter_perform in Hperf
        as (pj & q & msg & Hj & Hl & Hrj & _ & _ & Hperf).
      pose proof (perform_spec _ _ _ _ Hperf) as (Hprocs & _).
      simpl in Hprocs. rewrite Hprocs in Hp.
      destruct (decide (j = i)) as [->|Hne].
      * rewrite list_lookup_insert_eq in Hp by by eapply lookup_lt_Some.
        injection Hp as <-.
        apply (perform_stop_set _ _ _ _ Hperf). right.
        rewrite (handle_message_declares _ _ Hrj Hr). by left.
      * rewrite list_lookup_insert_ne in Hp by done.
        apply (step_stop_event_kept _ _ _ Hstep). exact (IH _ _ Hp Hr).
Qed.

(** X4: the termination signal. In every reachable world [stop_event] is
    set exactly when some process has declared itself leader, and no step
    ever clears it. *)
Theorem stop_event_iff_leader (ids : list Z) (w : World) :
  reachable ids w ->
  (stop_event w = true <->
   exists i p, processes w !! i = Some p /\ terminated p)
  /\ forall a w', step a w = Some w' -> stop_event w = true ->
                  stop_event w' = true.
Proof.
  intros Hw. split; [split|].
  - apply (reachable_stop_event ids w Hw).
  - intros (i & p & Hp & Ht).
    exact (reachable_terminated_stop ids w i p Hw Hp Ht).
  - intros a w'. apply step_stop_event_kept.
Qed.

Lemma stop_event_iff_leader_witness :
  stop_event (world_after ring51 schedule51_outbound) = false
  /\ forall i p,
       processes (world_after ring51 schedule51_outbound) !! i = Some p ->
       ~ terminated p.
Proof.
  destruct (stop_event_iff_leader ring51
              (world_after ring51 schedule51_outbound)) as [[_ H] _].
  { apply world_after_reachable. vm_compute. eexists. reflexivity. }
  split; [vm_compute; reflexivity|].
  intros i p Hp Ht.
  assert (stop_event (world_after ring51 schedule51_outbound) = true) as Hs
    by (apply H; eauto).
  vm_compute in Hs. discriminate.
Defined.

(** ** The wiring of the ring *)

Lemma ring_right_left n i : (i < n)%nat -> ring_right n (ring_left n i) = i.
Proof.
  intros Hi. unfold ring_right. rewrite ring_left_Z by done.
  rewrite Zplus_mod_idemp_l.
  replace (Z.of_nat i - 1 + 1) with (Z.of_nat i) by lia.
  rewrite Z.mod_small by lia. apply Nat2Z.id.
Qed.

Lemma ring_left_right n i : (i < n)%nat -> ring_left n (ring_right n i) = i.
Proof.
  intros Hi. unfold ring_left. rewrite ring_right_Z by done.
  rewrite Zminus_mod_idemp_l.
  replace (Z.of_nat i + 1 - 1) with (Z.of_nat i) by lia.
  rewrite Z.mod_small by lia. apply Nat2Z.id.
Qed.

(** X5: neighbours are mutual. After [connect_ring], the process that [p]
    reaches through its left queue reaches [p] through its right queue, and
    the one that [p] reaches through its right queue reaches [p] through its
    left queue; this holds for every length of the list, also 1 and 2. *)
Theorem neighbours_are_mutual (procs : list Process) (i : nat) (p : Process) :
  procs !! i = Some p ->
  exists l r,
    connect_ring procs !! ring_left (length procs) i = Some l
    /\ connect_ring procs !! ring_right (length procs) i = Some r
    /\ right_queue l = Some (inbox p)
    /\ left_queue r = Some (inbox p).
Proof.
  intros Hp. pose proof (lookup_lt_Some _ _ _ Hp) as Hi.
  destruct (connect_ring_lookup _ _ _ Hp) as (l0 & r0 & Hl0 & Hr0 & _).
  destruct (connect_ring_lookup _ _ _ Hl0) as (ll & lr & _ & Hlr & Hl).
  destruct (connect_ring_lookup _ _ _ Hr0) as (rl & rr & Hrl & _ & Hr).
  rewrite ring_right_left in Hlr by done.
  rewrite ring_left_right in Hrl by done.
  rewrite Hp in Hlr, Hrl. injection Hlr as Elr. injection Hrl as Erl.
  subst lr rl.
  eexists _, _. split; [exact Hl|]. split; [exact Hr|]. done.
Qed.

Lemma neighbours_are_mutual_witness :
  exists l r,
    connect_ring (build_processes ring37192) !! 4%nat = Some l
    /\ connect_ring (build_processes ring37192) !! 1%nat = Some r
    /\ right_queue l = Some 0%nat
    /\ left_queue r = Some 0%nat.
Proof.
  apply (neighbours_are_mutual (build_processes ring37192) 0%nat
           (Process_init 3 5 0%nat)).
  reflexivity.
Defined.

(** X6: [connect_ring] writes the two queue attributes and nothing else,
    keeps the length of the list, and wiring an already wired list again
    changes nothing. *)
Theorem connect_ring_idempotent (procs : list Process) :
  connect_ring (connect_ring procs) = connect_ring procs
  /\ length (connect_ring procs) = length procs
  /\ forall i p', connect_ring procs !! i = Some p' ->
       exists p,
         procs !! i = Some p
         /\ set_right_queue (right_queue p) (set_left_queue (left_queue p) p')
            = p.
Proof.
  split; [|split; [apply connect_ring_length|]].
  - apply list_eq. intros i.
    destruct (connect_ring procs !! i) as [p1|] eqn:H1.
    + assert (i < length procs)%nat as Hi.
      { rewrite <- connect_ring_length. by eapply lookup_lt_Some. }
      destruct (lookup_lt_is_Some_2 _ _ Hi) as [p Hp].
      destruct (connect_ring_lookup _ _ _ Hp) as (l & r & Hl & Hr & Hc).
      rewrite H1 in Hc. injection Hc as ->.
      destruct (connect_ring_lookup _ _ _ H1) as (l' & r' & Hl' & Hr' & Hc').
      rewrite connect_ring_length in Hl', Hr'. rewrite Hc'.
      destruct (connect_ring_lookup _ _ _ Hl) as (ll & lr & _ & _ & El).
      destruct (connect_ring_lookup _ _ _ Hr) as (rl & rr & _ & _ & Er).
      rewrite El in Hl'. rewrite Er in Hr'.
      injection Hl' as <-. injection Hr' as <-. reflexivity.
    + apply lookup_ge_None. rewrite connect_ring_length.
      by apply lookup_ge_None.
  - intros i p' H1.
    assert (i < length procs)%nat as Hi.
    { rewrite <- connect_ring_length. by eapply lookup_lt_Some. }
    destruct (lookup_lt_is_Some_2 _ _ Hi) as [p Hp].
    destruct (connect_ring_lookup _ _ _ Hp) as (l & r & _ & _ & Hc).
    rewrite H1 in Hc. injection Hc as ->. exists p. split; [done|].
    by destruct p.
Qed.

Lemma connect_ring_idempotent_witness :
  connect_ring (connect_ring (build_processes ring51))
  = connect_ring (build_processes ring51).
Proof. apply (connect_ring_idempotent (build_processes ring51)). Defined.

(** ** The journey of a probe *)

Lemma ring_pos_left n z :
  (0 < n)%nat -> ring_left n (ring_pos n z) = ring_pos n (z - 1).
Proof.
  intros Hn. unfold ring_left, ring_pos.
  pose proof (Z.mod_pos_bound z (Z.of_nat n)).
  rewrite Z2Nat.id by lia. by rewrite Zminus_mod_idemp_l.
Qed.

Lemma ring_pos_right n z :
  (0 < n)%nat -> ring_right n (ring_pos n z) = ring_pos n (z + 1).
Proof.
  intros Hn. unfold ring_right, ring_pos.
  pose proof (Z.mod_pos_bound z (Z.of_nat n)).
  rewrite Z2Nat.id by lia. by rewrite Zplus_mod_idemp_l.
Qed.

Lemma ring_pos_self n i : (i < n)%nat -> ring_pos n (Z.of_nat i) = i.
Proof.
  intros Hi. unfold ring_pos. rewrite Z.mod_small by lia. apply Nat2Z.id.
Qed.

Lemma relay_outbound n z x d k dist :
  (0 < n)%nat -> dist - 1 <> 0 ->
  relay n (ring_pos n z, mkMessage x d k dist false)
  = (ring_pos n (z + heading d), mkMessage x d k (dist - 1) false).
Proof.
  intros Hn Hd. unfold relay, hop, choose_target. simpl.
  destruct (Z.eqb_spec (dist - 1) 0); [done|].
  destruct d; simpl; [by rewrite ring_pos_left|by rewrite ring_pos_right].
Qed.

Lemma relay_turn n z x d k :
  (0 < n)%nat ->
  relay n (ring_pos n z, mkMessage x d k 1 false)
  = (ring_pos n (z - heading d), mkMessage x d k 0 true).
Proof.
  intros Hn. unfold relay, hop, choose_target. simpl.
  destruct d; simpl; [rewrite ring_pos_right|rewrite ring_pos_left];
    try done; do 2 f_equal; lia.
Qed.

Lemma relay_returning n z x d k dist :
  (0 < n)%nat ->
  relay n (ring_pos n z, mkMessage x d k dist true)
  = (ring_pos n (z - heading d), mkMessage x d k dist true).
Proof.
  intros Hn. unfold relay, hop, choose_target. simpl.
  destruct d; simpl; [rewrite ring_pos_right|rewrite ring_pos_left];
    try done; do 2 f_equal; lia.
Qed.

Ltac same_place :=
  match goal with
  | |- (ring_pos _ _, mkMessage _ ?d _ _ _) = _ =>
      apply (f_equal2 pair);
      [f_equal; destruct d; simpl; lia | f_equal; lia]
  end.

Lemma relay_way_out n o x d k (dist : nat) j :
  (0 < n)%nat -> (j < dist)%nat ->
  Nat.iter j (relay n)
    (ring_pos n (Z.of_nat o + heading d),
     mkMessage x d k (Z.of_nat dist) false)
  = (ring_pos n (Z.of_nat o + heading d * (Z.of_nat j + 1)),
     mkMessage x d k (Z.of_nat dist - Z.of_nat j) false).
Proof.
  intros Hn. induction j as [|j IH]; intros Hj.
  - simpl. same_place.
  - rewrite Nat.iter_succ, IH by lia.
    rewrite relay_outbound by (done || lia). same_place.
Qed.

Lemma relay_way_back n o x d k (dist : nat) j :
  (0 < n)%nat -> (1 <= dist)%nat -> (dist <= j)%nat ->
  Nat.iter j (relay n)
    (ring_pos n (Z.of_nat o + heading d),
     mkMessage x d k (Z.of_nat dist) false)
  = (ring_pos n (Z.of_nat o
                 + heading d * (2 * Z.of_nat dist - 1 - Z.of_nat j)),
     mkMessage x d k 0 true).
Proof.
  intros Hn Hd. induction j as [|j IH]; intros Hj; [lia|].
  rewrite Nat.iter_succ.
  destruct (decide (dist = S j)) as [->|Hne].
  - rewrite relay_way_out by lia.
    replace (Z.of_nat (S j) - Z.of_nat j) with 1 by lia.
    rewrite relay_turn by done. same_place.
  - rewrite IH by lia. rewrite relay_returning by done.
    same_place.
Qed.

(** X7: the round trip of a probe that nobody kills or consumes. Sent from
    position [o] with distance [dist >= 1], it is outbound with distance
    [dist - j] at the position [j + 1] hops away after [j < dist] relays, is
    turned around exactly once, by the [dist]-th process, and then retraces
    its path as an echo of distance 0; after [2 * dist - 1] relays, that is
    [2 * dist] hops with the first [put] of [start_phase], it lies in the
    inbox of its origin. *)
Theorem probe_round_trip (n o : nat) (x k : Z) (d : Direction) (dist : nat) :
  (o < n)%nat ->
  (1 <= dist)%nat ->
  (forall j, (j < dist)%nat ->
     Nat.iter j (relay n)
       (match d with LEFT => ring_left n o | RIGHT => ring_right n o end,
        mkMessage x d k (Z.of_nat dist) false)
     = (ring_pos n (Z.of_nat o + heading d * (Z.of_nat j + 1)),
        mkMessage x d k (Z.of_nat dist - Z.of_nat j) false))
  /\ (forall j, (dist <= j)%nat ->
        Nat.iter j (relay n)
          (match d with LEFT => ring_left n o | RIGHT => ring_right n o end,
           mkMessage x d k (Z.of_nat dist) false)
        = (ring_pos n (Z.of_nat o
                       + heading d * (2 * Z.of_nat dist - 1 - Z.of_nat j)),
           mkMessage x d k 0 true))
  /\ Nat.iter (2 * dist - 1) (relay n)
       (match d with LEFT => ring_left n o | RIGHT => ring_right n o end,
        mkMessage x d k (Z.of_nat dist) false)
     = (o, mkMessage x d k 0 true).
Proof.
  intros Ho Hd.
  assert (match d with LEFT => ring_left n o | RIGHT => ring_right n o end
          = ring_pos n (Z.of_nat o + heading d)) as ->.
  { destruct d; reflexivity. }
  split; [|split].
  - intros j Hj. apply relay_way_out; lia.
  - intros j Hj. apply relay_way_back; lia.
  - rewrite relay_way_back by lia.
    replace (2 * Z.of_nat dist - 1 - Z.of_nat (2 * dist - 1)) with 0 by lia.
    rewrite Z.mul_0_r, Z.add_0_r, ring_pos_self by done. reflexivity.
Qed.

Lemma probe_round_trip_witness :
  Nat.iter 7 (relay 5) (ring_left 5 3, mkMessage 9 LEFT 2 4 false)
  = (3%nat, mkMessage 9 LEFT 2 0 true).
Proof.
  destruct (probe_round_trip 5 3 9 2 LEFT 4) as (_ & _ & H);
    [lia|lia|exact H].
Defined.

(** X8: what a forwarding iteration does to the queues. When the thread at
    position [i] of a reachable world takes a message that it neither kills
    nor takes as a confirmation, that message leaves its inbox and the
    message [relay] computes from it enters the inbox of one neighbour;
    every other message stays where it is. *)
Theorem forward_is_relay (ids : list Z) (w w' : World) (i k : nat)
    (p : Process) (q : list Message) (msg : Message) :
  reachable ids w ->
  processes w !! i = Some p ->
  queues w !! i = Some q ->
  q !! k = Some msg ->
  killed p msg = false ->
  confirms p msg = false ->
  step (RunIteration i k) w = Some w' ->
  exists rest,
    in_flight w ≡ₚ (i, msg) :: rest
    /\ in_flight w' ≡ₚ relay (length ids) (i, msg) :: rest.
Proof.
  intros Hw Hp Hq Hk Hkill Hconf Hstep.
  pose proof (reachable_proc_ok _ _ _ _ Hw Hp) as Hok.
  assert (inbox p = i) as Hin by apply Hok.
  apply step_iter_perform in Hstep
    as (p' & q' & msg' & Hp' & _ & _ & Hq' & Hk' & Hperf).
  rewrite Hp in Hp'. injection Hp' as <-.
  rewrite Hin, Hq in Hq'. injection Hq' as <-.
  rewrite Hk in Hk'. injection Hk' as <-.
  apply perform_spec in Hperf as (_ & _ & Hfl').
  rewrite handle_message_forward in Hfl' by done.
  unfold send in Hfl'. cbn [fst snd] in Hfl'.
  rewrite (deliveries_forward ids i p) in Hfl' by done.
  unfold in_flight in Hfl' at 2. simpl in Hfl'. rewrite Hin in Hfl'.
  exists (in_flight_from 0%nat (<[i := delete k q]> (queues w))).
  split.
  - by apply in_flight_from_get.
  - rewrite Hfl'. unfold relay. simpl.
    by rewrite <- Permutation_cons_append.
Qed.

Lemma forward_is_relay_witness :
  exists rest,
    in_flight (world_after ring51 schedule51_outbound)
    ≡ₚ (0%nat, mkMessage 5 LEFT 1 1 false) :: rest
    /\ in_flight (world_after ring51
                    (schedule51_outbound ++ [RunIteration 0 0]))
       ≡ₚ relay (length ring51) (0%nat, mkMessage 5 LEFT 1 1 false) :: rest.
Proof.
  apply (forward_is_relay ring51 (world_after ring51 schedule51_outbound)
           (world_after ring51 (schedule51_outbound ++ [RunIteration 0 0]))
           0%nat 0%nat
           (process_at (world_after ring51 schedule51_outbound) 0)
           [mkMessage 5 LEFT 1 1 false; mkMessage 5 RIGHT 1 1 false]).
  - apply world_after_reachable. vm_compute. eexists. reflexivity.
  - vm_compute. reflexivity.
  - vm_compute. reflexivity.
  - reflexivity.
  - vm_compute. reflexivity.
  - vm_compute. reflexivity.
  - vm_compute. reflexivity.
Defined.

(** ** Messages in flight, with unique identifiers *)

Lemma probe_current ids w a msg :
  NoDup ids -> reachable ids w ->
  (a, msg) ∈ in_flight w ->
  exists o p,
    processes w !! o = Some p
    /\ ids !! o = Some (origin_id msg)
    /\ pid p = origin_id msg
    /\ in_loop p = true
    /\ running p = true
    /\ msg_phase msg = phase p
    /\ flag (direction msg) p = false
    /\ 0 <= distance msg <= 2 ^ phase p.
Proof.
  intros Hnd Hw Hin.
  destruct (reachable_election_inv ids w Hnd Hw) as (Hprobes & _ & _).
  rewrite Forall_forall in Hprobes.
  destruct (Hprobes _ Hin) as (o & p & Ho & H1 & H2 & H3 & H4 & H5).
  simpl in *. exists o, p.
  pose proof (reachable_proc_ok _ _ _ _ Hw Ho)
    as (I1 & _ & _ & _ & _ & I6 & _ & _ & I9).
  repeat split; try done; try congruence.
  - destruct (running p) eqn:Hr; [done|].
    destruct (I9 eq_refl) as (_ & Hl & Hrr).
    unfold flag in H4. destruct (direction msg); congruence.
  - destruct (returning msg); lia.
  - rewrite H3. pose proof (pow2_pos _ I6).
    destruct (returning msg); [rewrite <- H3|]; lia.
Qed.

Lemma key_unique {A B} (f : A -> B) (l : list A) x y :
  NoDup (f <$> l) -> x ∈ l -> y ∈ l -> f x = f y -> x = y.
Proof.
  intros Hnd [i Hi]%list_elem_of_lookup [j Hj]%list_elem_of_lookup Heq.
  assert (i = j) as ->.
  { eapply (NoDup_lookup (f <$> l)); [done| |];
      rewrite list_lookup_fmap; [by rewrite Hi|by rewrite Hj, Heq]. }
  congruence.
Qed.

(** X9: no stale message. With unique identifiers, every message that sits
    in a queue of a reachable world was sent by a process that is still
    running, in the phase that process is in now, and for a direction whose
    confirmation is still outstanding; its distance lies between 0 and the
    radius of that phase. Two entries in the queues that agree on origin and
    direction are one and the same entry. So [handle_message] never meets an
    echo of an earlier phase, and never confirms a direction twice. *)
Theorem in_flight_is_current (ids : list Z) (w : World)
    (a : addr) (msg : Message) :
  NoDup ids ->
  reachable ids w ->
  (a, msg) ∈ in_flight w ->
  (exists o p,
     processes w !! o = Some p
     /\ ids !! o = Some (origin_id msg)
     /\ pid p = origin_id msg
     /\ in_loop p = true
     /\ running p = true
     /\ msg_phase msg = phase p
     /\ flag (direction msg) p = false
     /\ 0 <= distance msg <= 2 ^ phase p)
  /\ forall a' msg',
       (a', msg') ∈ in_flight w ->
       origin_id msg' = origin_id msg ->
       direction msg' = direction msg ->
       (a', msg') = (a, msg).
Proof.
  intros Hnd Hw Hin. split; [exact (probe_current ids w a msg Hnd Hw Hin)|].
  intros a' msg' Hin' Ho Hd.
  destruct (reachable_election_inv ids w Hnd Hw) as (_ & Hkeys & _).
  apply (key_unique key (in_flight w)); try done.
  unfold key. simpl. congruence.
Qed.

Lemma ring37192_NoDup : NoDup ring37192.
Proof. apply (bool_decide_unpack _). vm_compute. exact I. Qed.

Lemma in_flight_is_current_witness :
  exists o p,
    processes (world_after ring51 schedule51_outbound) !! o = Some p
    /\ ring51 !! o = Some 5
    /\ pid p = 5
    /\ in_loop p = true
    /\ running p = true
    /\ 1 = phase p
    /\ confirm_left p = false
    /\ 0 <= 1 <= 2 ^ phase p.
Proof.
  destruct (in_flight_is_current ring51
              (world_after ring51 schedule51_outbound)
              0%nat (mkMessage 5 LEFT 1 1 false)) as [H _].
  - apply (bool_decide_unpack _). vm_compute. exact I.
  - apply world_after_reachable. vm_compute. eexists. reflexivity.
  - vm_compute. left.
  - exact H.
Defined.

(** X10: the queues stay small. With unique identifiers a reachable world
    never holds more than two messages per process in all its queues
    together, so no inbox ever holds more than [2 * N] messages. *)
Theorem in_flight_bounded (ids : list Z) (w : World) :
  NoDup ids ->
  reachable ids w ->
  (length (in_flight w) <= 2 * length ids)%nat
  /\ forall a q, queues w !! a = Some q ->
                 (length q <= 2 * length ids)%nat.
Proof.
  intros Hnd Hw.
  destruct (reachable_election_inv ids w Hnd Hw) as (_ & Hkeys & _).
  assert (length (in_flight w) <= 2 * length ids)%nat as Hall.
  { rewrite <- (length_fmap key).
    transitivity (length (((fun x => (x, LEFT)) <$> ids)
                          ++ ((fun x => (x, RIGHT)) <$> ids))).
    - apply submseteq_length, NoDup_submseteq; [done|].
      intros ky Hky. apply list_elem_of_fmap in Hky as ([a msg] & -> & Hin).
      destruct (probe_current ids w a msg Hnd Hw Hin)
        as (o & p & _ & Ho & _).
      apply list_elem_of_lookup_2 in Ho. unfold key. simpl.
      apply elem_of_app.
      destruct (direction msg); [left|right];
        apply list_elem_of_fmap; eexists; split; done.
    - rewrite length_app, !length_fmap. lia. }
  split; [done|]. intros a q Hq.
  etransitivity; [|exact Hall].
  unfold in_flight.
  assert (forall (qs : list (list Message)) b c,
            qs !! c = Some q ->
            (length q <= length (in_flight_from b qs))%nat) as Hsub.
  { induction qs as [|q0 qs IH]; intros b [|c] Hc; simplify_eq/=.
    - rewrite length_app, length_map. lia.
    - rewrite length_app. specialize (IH (S b) c Hc). lia. }
  by eapply Hsub.
Qed.

Lemma in_flight_bounded_witness :
  (length (in_flight (world_after ring37192 schedule37192))
   <= 2 * length ring37192)%nat
  /\ forall a q,
       queues (world_after ring37192 schedule37192) !! a = Some q ->
       (length q <= 2 * length ring37192)%nat.
Proof.
  apply (in_flight_bounded ring37192 (world_after ring37192 schedule37192)).
  - apply (bool_decide_unpack _). vm_compute. exact I.
  - apply world_after_reachable. vm_compute. eexists. reflexivity.
Defined.

(** ** What a phase certifies *)

Lemma local_max_ok_same ids i p p' :
  pid p' = pid p -> phase p' = phase p ->
  confirm_left p' = confirm_left p -> confirm_right p' = confirm_right p ->
  local_max_ok ids i p -> local_max_ok ids i p'.
Proof.
  intros E1 E2 E3 E4 [H1 H2]. unfold local_max_ok.
  rewrite E1, E2. split; [|done].
  intros d Hd. apply H1. unfold flag in *. destruct d; congruence.
Qed.

Lemma reachable_local_max ids w :
  NoDup ids -> reachable ids w ->
  forall i p, processes w !! i = Some p -> local_max_ok ids i p.
Proof.
  intros Hnd. induction 1 as [|w a w' Hw IH Hstep]; intros j pj Hj.
  - apply main_world_lookup in Hj as (x & _ & ->).
    split; simpl; [by intros []|lia].
  - destruct (reachable_election_inv ids w Hnd Hw) as (Hprobes & _ & _).
    destruct a as [i|i k].
    + apply step_start_inv in Hstep as (p & Hp & Hl & Hprocs & _).
      rewrite Hprocs in Hj. destruct (decide (i = j)) as [->|Hne].
      * rewrite list_lookup_insert_eq in Hj by by eapply lookup_lt_Some.
        injection Hj as <-.
        apply (local_max_ok_same ids j p); [reflexivity..|by apply IH].
      * rewrite list_lookup_insert_ne in Hj by done. by apply IH.
    + apply step_iter_inv in Hstep
        as (p & msg & rest & Hp & Hl & Hr & Hfl & Hprocs & _).
      rewrite Hprocs in Hj. destruct (decide (i = j)) as [->|Hne];
        [|rewrite list_lookup_insert_ne in Hj by done; by apply IH].
      rewrite list_lookup_insert_eq in Hj by by eapply lookup_lt_Some.
      injection Hj as <-.
      pose proof (IH _ _ Hp) as [Hflag Hprev].
      assert (probe_ok ids (processes w) (inbox p, msg)) as Hmsg.
      { rewrite Forall_forall in Hprobes. apply Hprobes. rewrite Hfl. by left. }
      assert (confirms p msg = true ->
              dominated ids (direction msg) (Z.of_nat j) (2 ^ phase p) (pid p))
        as Hecho.
      { intros [Ho Hret]%confirms_spec.
        destruct (probe_origin ids w j p (inbox p, msg) Hnd Hw Hp Hmsg Ho)
          as (_ & _ & _ & Hdom). by apply Hdom. }
      destruct (handle_message_cases p msg)
        as [E|[(Hc & [(Hb & E)|[(Hb & Hrad & E)|(Hb & Hrad & E)]])|(_ & _ & E)]];
        try rewrite start_phase_eq in E; rewrite E; clear E; cbn [fst].
      * by apply IH.
      * split; [|destruct (direction msg); exact Hprev].
        intros d Hd. specialize (Hecho Hc).
        destruct (direction msg), d; simpl in *;
          try exact Hecho; by apply Hflag.
      * split; [|exact Hprev]. intros d _. specialize (Hecho Hc).
        unfold both_confirmed_with in Hb.
        destruct (direction msg), d; simpl in *;
          try exact Hecho; by apply Hflag.
      * split; [by intros []|]. simpl. intros _ d.
        replace (phase p + 1 - 1) with (phase p) by lia.
        specialize (Hecho Hc). unfold both_confirmed_with in Hb.
        destruct (direction msg), d; simpl in *;
          try exact Hecho; by apply Hflag.
      * apply (local_max_ok_same ids j p); [reflexivity..|by apply IH].
Qed.

(** X11: what reaching a phase means. With unique identifiers, a process of
    a reachable world that is in phase [k >= 1] carries the largest
    identifier among all processes within [2^(k-1)] hops of it, on either
    side of the ring; and while one of its flags is set, also within [2^k]
    hops on that side. *)
Theorem phase_certifies_local_maximum (ids : list Z) (w : World) (i : nat)
    (p : Process) :
  NoDup ids ->
  reachable ids w ->
  processes w !! i = Some p ->
  (0 < phase p ->
   forall t, 1 <= t <= 2 ^ (phase p - 1) ->
     ring_at ids (Z.of_nat i - t) <= pid p
     /\ ring_at ids (Z.of_nat i + t) <= pid p)
  /\ (confirm_left p = true ->
      forall t, 1 <= t <= 2 ^ phase p -> ring_at ids (Z.of_nat i - t) <= pid p)
  /\ (confirm_right p = true ->
      forall t, 1 <= t <= 2 ^ phase p -> ring_at ids (Z.of_nat i + t) <= pid p).
Proof.
  intros Hnd Hw Hp.
  destruct (reachable_local_max ids w Hnd Hw i p Hp) as [Hflag Hprev].
  split; [|split].
  - intros Hk t Ht. split.
    + pose proof (Hprev Hk LEFT t Ht) as H. simpl in H.
      by replace (Z.of_nat i + -1 * t) with (Z.of_nat i - t) in H by lia.
    + pose proof (Hprev Hk RIGHT t Ht) as H. simpl in H.
      by replace (Z.of_nat i + 1 * t) with (Z.of_nat i + t) in H by lia.
  - intros Hl t Ht. pose proof (Hflag LEFT Hl t Ht) as H. simpl in H.
    by replace (Z.of_nat i + -1 * t) with (Z.of_nat i - t) in H by lia.
  - intros Hr t Ht. pose proof (Hflag RIGHT Hr t Ht) as H. simpl in H.
    by replace (Z.of_nat i + 1 * t) with (Z.of_nat i + t) in H by lia.
Qed.

Lemma phase_certifies_local_maximum_witness :
  phase (process_at (world_after ring37192 schedule37192) 1) = 1
  /\ forall t, 1 <= t <= 2 ^ (1 - 1) ->
       ring_at ring37192 (Z.of_nat 1 - t)
       <= pid (process_at (world_after ring37192 schedule37192) 1)
       /\ ring_at ring37192 (Z.of_nat 1 + t)
          <= pid (process_at (world_after ring37192 schedule37192) 1).
Proof.
  split; [vm_compute; reflexivity|].
  destruct (phase_certifies_local_maximum ring37192
              (world_after ring37192 schedule37192) 1%nat
              (process_at (world_after ring37192 schedule37192) 1))
    as (H & _).
  - exact ring37192_NoDup.
  - apply world_after_reachable. vm_compute. eexists. reflexivity.
  - vm_compute. reflexivity.
  - apply H. vm_compute. reflexivity.
Defined.

(** ** The prompts of [main], line by line *)

Lemma read_N_None lines : read_N lines = None <-> Forall rejected_size lines.
Proof.
  induction lines as [|[z|] lines IH]; simpl.
  - split; [constructor|done].
  - destruct (Z.ltb_spec z 2) as [Hlt|Hge].
    + rewrite IH. split; [by constructor|by intros [_ ?]%Forall_cons].
    + split; [done|]. intros [Hz _]%Forall_cons. simpl in Hz. lia.
  - rewrite IH. split; [by constructor|by intros [_ ?]%Forall_cons].
Qed.

Lemma read_N_Some lines N rest :
  read_N lines = Some (N, rest) <->
  exists pre,
    lines = pre ++ Some N :: rest /\ 2 <= N /\ Forall rejected_size pre.
Proof.
  induction lines as [|[z|] lines IH]; simpl.
  - split; [done|]. by intros ([|? ?] & ? & _).
  - destruct (Z.ltb_spec z 2) as [Hlt|Hge].
    + rewrite IH. split.
      * intros (pre & -> & HN & Hpre). exists (Some z :: pre).
        repeat split; try done. by constructor.
      * intros ([|l pre] & Heq & HN & Hpre); simplify_eq/=; try lia.
        apply Forall_cons in Hpre as [_ Hpre]. by exists pre.
    + split.
      * intros [= <- <-]. exists []. repeat split; try done; try lia.
      * intros ([|l pre] & Heq & HN & Hpre); simplify_eq/=; try done.
        apply Forall_cons in Hpre as [Hz _]. simpl in Hz. lia.
  - rewrite IH. split.
    + intros (pre & -> & HN & Hpre). exists (None :: pre).
      repeat split; try done. by constructor.
    + intros ([|l pre] & Heq & HN & Hpre); simplify_eq/=.
      apply Forall_cons in Hpre as [_ Hpre]. by exists pre.
Qed.

(** X12: the prompt for the number of processes. [read_N] passes over every
    line that is not an integer or is below 2 and returns the first
    integer that is at least 2, together with the lines after it; it gives
    no result exactly when every line is of the rejected kind. *)
Theorem read_N_first_valid (lines : list (option Z)) :
  (forall N rest,
     read_N lines = Some (N, rest) <->
     exists pre,
       lines = pre ++ Some N :: rest /\ 2 <= N /\ Forall rejected_size pre)
  /\ (read_N lines = None <-> Forall rejected_size lines).
Proof. split; [apply read_N_Some|apply read_N_None]. Qed.

Lemma read_N_first_valid_witness :
  read_N [Some 1; None; Some 0; Some 5; Some 7] = Some (5, [Some 7]).
Proof.
  apply (read_N_first_valid [Some 1; None; Some 0; Some 5; Some 7]).
  exists [Some 1; None; Some 0]. split; [reflexivity|]. split; [lia|].
  repeat constructor; simpl; lia.
Defined.

Lemma read_ids_full N lines ids0 :
  N <= Z.of_nat (length ids0) ->
  read_ids N ids0 lines = Some (ids0, lines).
Proof.
  intros Hge. destruct lines as [|l lines]; simpl;
    by destruct (Z.ltb_spec (Z.of_nat (length ids0)) N); [lia|].
Qed.

Lemma read_ids_short N lines ids0 :
  Z.of_nat (length ids0) < N ->
  read_ids N ids0 lines
  = match lines with
    | [] => None
    | Some pid :: rest =>
        if pid <=? 0 then read_ids N ids0 rest
        else if bool_decide (pid ∈ ids0) then read_ids N ids0 rest
        else read_ids N (ids0 ++ [pid]) rest
    | None :: rest => read_ids N ids0 rest
    end.
Proof.
  intros Hlt. destruct lines as [|l lines]; simpl;
    by destruct (Z.ltb_spec (Z.of_nat (length ids0)) N); [|lia].
Qed.

Lemma read_ids_trace N lines ids0 ids rest :
  read_ids N ids0 lines = Some (ids, rest) ->
  exists pre new,
    lines = pre ++ rest
    /\ ids = ids0 ++ new
    /\ new `sublist_of` omap id pre
    /\ forall x, Some x ∈ pre -> 0 < x -> x ∈ ids.
Proof.
  revert ids0. induction lines as [|l lines IH]; intros ids0;
    destruct (Z.ltb_spec (Z.of_nat (length ids0)) N) as [Hlt|Hge].
  - by rewrite read_ids_short.
  - rewrite read_ids_full by done. intros [= <- <-]. exists [], [].
    repeat split; try done; try apply sublist_nil_l;
      [by rewrite app_nil_r|by intros x ?%elem_of_nil].
  - rewrite read_ids_short by done. destruct l as [z|].
    + destruct (Z.leb_spec z 0) as [Hz|Hz]; [|case_bool_decide as Hin];
        intros H;
        destruct (IH _ H) as (pre & new & -> & -> & Hsub & Hall).
      * exists (Some z :: pre), new. repeat split; try done.
        -- simpl. by apply sublist_cons.
        -- intros x [E|Hx]%elem_of_cons Hpos; [|by apply Hall].
           injection E as ->. lia.
      * exists (Some z :: pre), new. repeat split; try done.
        -- simpl. by apply sublist_cons.
        -- intros x [E|Hx]%elem_of_cons Hpos; [|by apply Hall].
           injection E as ->. apply elem_of_app. by left.
      * exists (Some z :: pre), (z :: new). repeat split; try done.
        -- by rewrite <- (assoc_L (++)).
        -- simpl. by apply sublist_skip.
        -- intros x [E|Hx]%elem_of_cons Hpos; [|by apply Hall].
           injection E as ->. rewrite <- (assoc_L (++)).
           apply elem_of_app. right. by left.
    + intros H. destruct (IH _ H) as (pre & new & -> & -> & Hsub & Hall).
      exists (None :: pre), new. repeat split; try done.
      intros x [?|Hx]%elem_of_cons Hpos; [done|by apply Hall].
  - rewrite read_ids_full by done. intros [= <- <-]. exists [], [].
    repeat split; try done; try apply sublist_nil_l;
      [by rewrite app_nil_r|by intros x ?%elem_of_nil].
Qed.

(** X13: the prompt for the identifiers. What [read_ids] returns are
    integers that were typed, in the order in which they were typed; of the
    lines it consumed, every positive integer is among them, so only lines
    that are no integer, not positive or a repetition are dropped; and the
    lines it did not consume are handed back untouched. With [N <= 0] it
    consumes nothing. *)
Theorem read_ids_keeps_order (N : Z) (lines : list (option Z))
    (ids : list Z) (rest : list (option Z)) :
  read_ids N [] lines = Some (ids, rest) ->
  (exists pre,
     lines = pre ++ rest
     /\ ids `sublist_of` omap id pre
     /\ forall x, Some x ∈ pre -> 0 < x -> x ∈ ids)
  /\ (N <= 0 -> ids = [] /\ rest = lines).
Proof.
  intros H. split.
  - destruct (read_ids_trace _ _ _ _ _ H)
      as (pre & new & Hl & Hi & Hsub & Hall).
    simpl in Hi. subst new. by exists pre.
  - intros HN. rewrite read_ids_full in H by (simpl; lia).
    by injection H as <- <-.
Qed.

Lemma read_ids_keeps_order_witness :
  exists pre,
    [Some 4; Some 4; None; Some (-3); Some 9; Some 2] = pre ++ [Some 2]
    /\ [4; 9] `sublist_of` omap id pre
    /\ forall x, Some x ∈ pre -> 0 < x -> x ∈ [4; 9].
Proof.
  apply (read_ids_keeps_order 2
           [Some 4; Some 4; None; Some (-3); Some 9; Some 2] [4; 9] [Some 2]).
  reflexivity.
Defined.

(** ** Bounds *)

(** X14: the number of phases is logarithmic. In every reachable world the
    phase of a process lies between 0 and the rounded-up binary logarithm of
    the number of processes, and the radius of its phase is below twice
    that number; so no probe is ever sent with a distance of [2 * N] or
    more. *)
Theorem radius_bounded (ids : list Z) (w : World) (i : nat) (p : Process) :
  reachable ids w ->
  processes w !! i = Some p ->
  0 <= phase p <= Z.log2_up (Z.of_nat (length ids))
  /\ 1 <= 2 ^ phase p < 2 * Z.of_nat (length ids).
Proof.
  intros Hw Hp.
  destruct (reachable_proc_ok _ _ _ _ Hw Hp)
    as (Hi & _ & _ & _ & Hn & Hph & _ & Hprev & _).
  pose proof (lookup_lt_Some _ _ _ Hi) as Hlt. rewrite Hn in Hprev.
  pose proof (pow2_pos _ Hph).
  destruct (decide (phase p = 0)) as [E|E].
  - rewrite E. pose proof (Z.log2_up_nonneg (Z.of_nat (length ids))).
    simpl. lia.
  - assert (0 < phase p) as Hpos by lia. specialize (Hprev Hpos).
    split; [split; [done|]|split; [done|]].
    + apply Z.log2_up_lt_pow2 in Hprev; lia.
    + replace (phase p) with (Z.succ (phase p - 1)) by lia.
      rewrite Z.pow_succ_r by lia. lia.
Qed.

Lemma radius_bounded_witness :
  0 <= phase (process_at (world_after ring37192 schedule37192) 3)
    <= Z.log2_up (Z.of_nat (length ring37192))
  /\ 1 <= 2 ^ phase (process_at (world_after ring37192 schedule37192) 3)
       < 2 * Z.of_nat (length ring37192).
Proof.
  apply (radius_bounded ring37192 (world_after ring37192 schedule37192)
           3%nat).
  - apply world_after_reachable. vm_compute. eexists. reflexivity.
  - vm_compute. reflexivity.
Defined.

(** X15: the message counter counts the [put]s. One call of
    [handle_message] puts at most two messages and raises the counter by
    exactly the number it puts; [start_phase] raises it by 2; so over any
    sequence of handled messages the counter never decreases. *)
Theorem counter_counts_puts (p : Process) (msgs : list Message) :
  (forall msg,
     message_counter (fst (handle_message p msg))
     = message_counter p + puts (snd (handle_message p msg))
     /\ 0 <= puts (snd (handle_message p msg)) <= 2)
  /\ message_counter (fst (start_phase p)) = message_counter p + 2
  /\ puts (snd (start_phase p)) = 2
  /\ message_counter p <= message_counter (handle_all p msgs).
Proof.
  assert (forall q msg, 0 <= puts (snd (handle_message q msg)) <= 2) as Hle.
  { intros q msg.
    destruct (handle_message_cases q msg)
      as [E|[(Hc & [(Hb & E)|[(Hb & Hrad & E)|(Hb & Hrad & E)]])|(_ & _ & E)]];
      try rewrite start_phase_eq in E; rewrite E; simpl; lia. }
  split; [|split; [|split]].
  - intros msg. split; [apply handle_message_puts|apply Hle].
  - by rewrite start_phase_eq.
  - by rewrite start_phase_eq.
  - unfold handle_all. revert p.
    induction msgs as [|msg msgs IH]; intros p; simpl; [lia|].
    specialize (IH (fst (handle_message p msg))).
    pose proof (handle_message_puts p msg). pose proof (Hle p msg). lia.
Qed.

Lemma counter_counts_puts_witness :
  message_counter (Process_init 5 2 0%nat)
  <= message_counter
       (handle_all (Process_init 5 2 0%nat)
          [mkMessage 1 LEFT 0 1 false; mkMessage 5 LEFT 0 0 true;
           mkMessage 5 RIGHT 0 0 true]).
Proof.
  apply (counter_counts_puts (Process_init 5 2 0%nat)
           [mkMessage 1 LEFT 0 1 false; mkMessage 5 LEFT 0 0 true;
            mkMessage 5 RIGHT 0 0 true]).
Defined.

(** ** From the keyboard to the leader *)

Lemma leader_of_unique_ring ids w i p :
  NoDup ids -> reachable ids w ->
  processes w !! i = Some p -> terminated p ->
  pid p = max_id ids.
Proof.
  intros Hnd Hw Hp Ht.
  destruct (reachable_election_inv ids w Hnd Hw) as (_ & _ & Hmax).
  apply max_id_unique; [|by eapply Hmax].
  destruct (reachable_proc_ok _ _ _ _ Hw Hp) as (Hi & _).
  by eapply list_elem_of_lookup_2.
Qed.

(** X16: [main] end to end. Whatever is typed at the prompts and whatever
    [random.sample] draws, if [main] gets as far as building the ring, then
    in every world that this ring can reach, a process that has declared
    itself leader carries the largest identifier of the ring and is the only
    one, and it did so in the least phase whose radius reaches the size
    typed. The uniqueness that the election needs is the one that the
    sampling or the prompt enforces. *)
Theorem main_elects_maximum (draw : list Z) (lines : list Line) (N : Z)
    (ids : list Z) (w : World) (i : nat) (p : Process) :
  main_ids draw lines = Some (N, ids) ->
  reachable ids w ->
  processes w !! i = Some p ->
  terminated p ->
  pid p = max_id ids
  /\ (forall j q, processes w !! j = Some q -> terminated q -> j = i)
  /\ N <= 2 ^ phase p
  /\ forall k, 0 <= k < phase p -> 2 ^ k < N.
Proof.
  intros Hmain Hw Hp Ht.
  apply main_ids_spec in Hmain as (HN & Hlen & Hnd & _).
  pose proof (leader_of_unique_ring ids w i p Hnd Hw Hp Ht) as Hmax.
  split; [done|]. split.
  - intros j q Hq Htq.
    apply (origin_unique ids w j i q p); try done.
    by rewrite Hmax, (leader_of_unique_ring ids w j q Hnd Hw Hq Htq).
  - destruct (reachable_proc_ok _ _ _ _ Hw Hp)
      as (_ & _ & _ & _ & Hn & Hph & _ & Hprev & Hterm).
    rewrite Hlen in Hn. rewrite <- Hn.
    destruct (Hterm Ht) as (Hge & _). split; [done|].
    intros k Hk. assert (0 < phase p) as Hpos by lia.
    specialize (Hprev Hpos).
    assert (2 ^ k <= 2 ^ (phase p - 1)) by (apply Z.pow_le_mono_r; lia). lia.
Qed.

Lemma main_elects_maximum_witness :
  main_ids []
    [Number 1; Number 5; Other; No; Number 3; Number 7; Number 3; Other;
     Number 1; Number 9; Number 2]
  = Some (5, ring37192)
  /\ main_ids ring37192 [Number 5; Number 8; Yes] = Some (5, ring37192)
  /\ pid (process_at (world_after ring37192 schedule37192) 3)
     = max_id ring37192
  /\ (forall j q,
        processes (world_after ring37192 schedule37192) !! j = Some q ->
        terminated q -> j = 3%nat)
  /\ 5 <= 2 ^ phase (process_at (world_after ring37192 schedule37192) 3)
  /\ forall k,
       0 <= k < phase (process_at (world_after ring37192 schedule37192) 3) ->
       2 ^ k < 5.
Proof.
  split; [vm_compute; reflexivity|]. split; [vm_compute; reflexivity|].
  apply (main_elects_maximum []
           [Number 1; Number 5; Other; No; Number 3; Number 7; Number 3;
            Other; Number 1; Number 9; Number 2]
           5 ring37192 (world_after ring37192 schedule37192) 3%nat).
  - vm_compute. reflexivity.
  - apply world_after_reachable. vm_compute. eexists. reflexivity.
  - vm_compute. reflexivity.
  - vm_compute. reflexivity.
Defined.

(** X17: the order of the prompts of [main]. If [main] gets as far as
    building the ring, the input consists of: lines that are no integer of
    at least 2, the line with [N], lines that are neither ["y"] nor ["n"],
    the answer, and the rest; on ["y"] the identifiers are the [N] distinct
    numbers that [random.sample] drew and the rest is not read, on ["n"]
    they are what the identifier prompt makes of the rest. *)
Theorem main_prompts_in_order (draw : list Z) (lines : list Line) (N : Z)
    (ids : list Z) :
  main_ids draw lines = Some (N, ids) ->
  exists pre1 pre2 rest (random : bool),
    lines = pre1 ++ Number N :: pre2 ++ (if random then Yes else No) :: rest
    /\ Forall (fun l => forall z, l = Number z -> z < 2) pre1
    /\ 2 <= N
    /\ Forall (fun l => l <> Yes /\ l <> No) pre2
    /\ if random then sample_ok N draw /\ ids = draw
       else exists left, read_ids N [] (int_of <$> rest) = Some (ids, left).
Proof. apply main_ids_inv. Qed.

Lemma main_prompts_in_order_witness :
  exists pre1 pre2 rest (random : bool),
    [Number 2; Number 4; No; Number 5; Number 6]
    = pre1 ++ Number 2 :: pre2 ++ (if random then Yes else No) :: rest
    /\ Forall (fun l => forall z, l = Number z -> z < 2) pre1
    /\ 2 <= 2
    /\ Forall (fun l => l <> Yes /\ l <> No) pre2
    /\ if random then sample_ok 2 [] /\ [5; 6] = []
       else exists left,
           read_ids 2 [] (int_of <$> rest) = Some ([5; 6], left).
Proof.
  apply (main_prompts_in_order []
           [Number 2; Number 4; No; Number 5; Number 6] 2 [5; 6]).
  reflexivity.
Defined.

(** ** Probes that come home *)

Lemma run_with_log_reachable ids w log :
  run_with_log ids w log -> reachable ids w.
Proof. induction 1; [constructor|by econstructor]. Qed.

Lemma run_schedule_log ids acts w0 log0 w :
  run_with_log ids w0 log0 ->
  run_schedule acts w0 = Some w ->
  run_with_log ids w (log0 ++ received_log acts w0).
Proof.
  revert w0 log0. induction acts as [|a acts IH]; intros w0 log0 H0 H;
    simpl in *.
  - simplify_eq. by rewrite app_nil_r.
  - apply bind_Some in H as (w1 & H1 & H2). rewrite H1.
    rewrite (assoc_L (++)). apply IH; [|done]. by constructor.
Qed.

Lemma step_iter_full i k w w' :
  step (RunIteration i k) w = Some w' ->
  exists p msg rest,
    processes w !! i = Some p
    /\ in_loop p = true
    /\ running p = true
    /\ taken (RunIteration i k) w = [(pid p, msg)]
    /\ in_flight w ≡ₚ (inbox p, msg) :: rest
    /\ processes w' = <[i := fst (handle_message p msg)]> (processes w)
    /\ in_flight w'
       ≡ₚ rest ++ deliveries (fst (handle_message p msg))
                    (snd (handle_message p msg)).
Proof.
  intros Hstep.
  apply step_iter_perform in Hstep
    as (p & q & msg & Hp & Hl & Hr & Hq & Hk & Hperf).
  exists p, msg, (in_flight_from 0%nat (<[inbox p := delete k q]> (queues w))).
  apply perform_spec in Hperf as (Hprocs & _ & Hfl).
  repeat split; try done.
  - unfold taken. by rewrite Hp, Hq, Hk.
  - by apply in_flight_from_get.
Qed.

Lemma probe_at_home ids w i p msg :
  NoDup ids -> reachable ids w ->
  processes w !! i = Some p ->
  (inbox p, msg) ∈ in_flight w ->
  returning msg = false ->
  distance msg = 2 ^ msg_phase msg - Z.of_nat (length ids) + 1 ->
  pid p = origin_id msg /\ msg = home_probe (length ids) msg.
Proof.
  intros Hnd Hw Hp Hin Hret Hd.
  destruct (reachable_election_inv ids w Hnd Hw) as (Hprobes & _ & _).
  rewrite Forall_forall in Hprobes.
  destruct (Hprobes _ Hin) as (o & po & Ho & H1 & _ & _ & _ & H5).
  simpl in *. rewrite Hret in H5. destruct H5 as (_ & Hpos & _).
  destruct (reachable_proc_ok _ _ _ _ Hw Hp) as (_ & Hinbox & _).
  destruct (reachable_proc_ok _ _ _ _ Hw Ho) as (Hio & _).
  pose proof (lookup_lt_Some _ _ _ Hio) as Hlt.
  rewrite Hinbox, Hd in Hpos.
  replace (2 ^ msg_phase msg
           - (2 ^ msg_phase msg - Z.of_nat (length ids) + 1) + 1)
    with (Z.of_nat (length ids)) in Hpos by lia.
  rewrite Z_mod_plus_full, Z.mod_small in Hpos by lia.
  apply Nat2Z.inj in Hpos. subst o. rewrite Hp in Ho. injection Ho as <-.
  split; [done|]. unfold home_probe. rewrite <- Hd.
  destruct msg; simpl in *. by subst.
Qed.

Lemma run_log_inv ids w log :
  NoDup ids -> run_with_log ids w log ->
  (forall a msg,
     (a, msg) ∈ in_flight w ->
     Z.of_nat (length ids) <= 2 ^ msg_phase msg ->
     returning msg = true
     \/ distance msg <= 2 ^ msg_phase msg - Z.of_nat (length ids) ->
     (origin_id msg, home_probe (length ids) msg) ∈ log)
  /\ (forall i p d,
        processes w !! i = Some p ->
        flag d p = true ->
        Z.of_nat (length ids) <= 2 ^ phase p ->
        (pid p,
         mkMessage (pid p) d (phase p)
           (2 ^ phase p - Z.of_nat (length ids) + 1) false) ∈ log).
Proof.
  intros Hnd. induction 1 as [|w log a w' Hrun [IHm IHp] Hstep].
  - split.
    + intros a msg Hin. rewrite in_flight_main_world in Hin.
      by apply elem_of_nil in Hin.
    + intros i p d Hp Hf. apply main_world_lookup in Hp as (x & _ & ->).
      by destruct d.
  - pose proof (run_with_log_reachable _ _ _ Hrun) as Hw.
    destruct a as [i|i k].
    + apply step_start_inv in Hstep as (p & Hp & Hl & Hprocs & _ & Hfl).
      pose proof (reachable_proc_ok _ _ _ _ Hw Hp) as Hok.
      rewrite (deliveries_start_phase ids i p) in Hfl
        by (done || by rewrite start_phase_eq).
      simpl. rewrite app_nil_r. split.
      * intros a msg Hin Hn Hc. rewrite Hfl in Hin.
        apply elem_of_app in Hin as [Hin|Hin]; [exact (IHm a msg Hin Hn Hc)|].
        destruct Hok as (Hi & _). pose proof (lookup_lt_Some _ _ _ Hi).
        rewrite !elem_of_cons in Hin.
        destruct Hin as [E|[E|E]]; [| |by apply elem_of_nil in E];
          injection E as -> ->; simpl in *;
          destruct Hc as [?|?]; (done || lia).
      * intros j pj d Hj Hf Hn. rewrite Hprocs in Hj.
        destruct (decide (i = j)) as [<-|Hne].
        -- rewrite list_lookup_insert_eq in Hj by by eapply lookup_lt_Some.
           injection Hj as <-.
           apply (IHp i p d Hp); [by destruct d|done].
        -- rewrite list_lookup_insert_ne in Hj by done. exact (IHp j pj d Hj Hf Hn).
    + apply step_iter_full in Hstep
        as (p & msg & rest & Hp & Hl & Hr & -> & Hfl & Hprocs & Hfl').
      pose proof (reachable_proc_ok _ _ _ _ Hw Hp) as Hok.
      assert (ids !! i = Some (pid p)) as Hi by apply Hok.
      pose proof (lookup_lt_Some _ _ _ Hi) as Hlt.
      assert ((inbox p, msg) ∈ in_flight w) as Hmsg
        by (rewrite Hfl; by left).
      assert (forall a m, (a, m) ∈ rest ->
                Z.of_nat (length ids) <= 2 ^ msg_phase m ->
                returning m = true
                \/ distance m <= 2 ^ msg_phase m - Z.of_nat (length ids) ->
                (origin_id m, home_probe (length ids) m)
                ∈ log ++ [(pid p, msg)]) as Hrest.
      { intros a m Hin Hn Hc. apply elem_of_app. left.
        apply (IHm a m); [|done..]. rewrite Hfl. by right. }
      assert (forall j pj d,
                <[i := fst (handle_message p msg)]> (processes w) !! j
                = Some pj ->
                (j = i ->
                 flag d pj = true ->
                 Z.of_nat (length ids) <= 2 ^ phase pj ->
                 (pid pj,
                  mkMessage (pid pj) d (phase pj)
                    (2 ^ phase pj - Z.of_nat (length ids) + 1) false)
                 ∈ log ++ [(pid p, msg)]) ->
                flag d pj = true ->
                Z.of_nat (length ids) <= 2 ^ phase pj ->
                (pid pj,
                 mkMessage (pid pj) d (phase pj)
                   (2 ^ phase pj - Z.of_nat (length ids) + 1) false)
                ∈ log ++ [(pid p, msg)]) as Hothers.
      { intros j pj d Hj Hself Hf Hn.
        destruct (decide (j = i)) as [->|Hne]; [by apply Hself|].
        rewrite list_lookup_insert_ne in Hj by done.
        apply elem_of_app. left. exact (IHp j pj d Hj Hf Hn). }
      assert (confirms p msg = true ->
              Z.of_nat (length ids) <= 2 ^ phase p ->
              (pid p,
               mkMessage (pid p) (direction msg) (phase p)
                 (2 ^ phase p - Z.of_nat (length ids) + 1) false) ∈ log)
        as Hecho.
      { intros [Ho Hret]%confirms_spec Hn.
        destruct (probe_current ids w (inbox p) msg Hnd Hw Hmsg)
          as (o & po & Hpo & _ & Hpid & _ & _ & Hph & _).
        assert (o = i) as ->
          by (apply (origin_unique ids w o i po p); congruence).
        rewrite Hp in Hpo. injection Hpo as <-.
        specialize (IHm (inbox p) msg Hmsg).
        unfold home_probe in IHm. rewrite Ho, Hph in IHm.
        apply IHm; [done|by left]. }
      rewrite Hprocs.
      destruct (handle_message_cases p msg)
        as [E|[(Hc & [(Hb & E)|[(Hb & Hrad & E)|(Hb & Hrad & E)]])|(Hk & Hnc & E)]];
        rewrite E in Hfl', Hothers |- *; clear E;
        cbn [fst snd] in Hfl', Hothers |- *.
      * (* killed *)
        unfold deliveries in Hfl'. simpl in Hfl'. rewrite app_nil_r in Hfl'.
        split.
        -- intros a m Hin. rewrite Hfl' in Hin. exact (Hrest a m Hin).
        -- intros j pj d Hj. apply (Hothers j pj d Hj). intros -> Hf Hn.
           rewrite list_lookup_insert_eq in Hj by by eapply lookup_lt_Some. injection Hj as <-.
           apply elem_of_app. left. exact (IHp i p d Hp Hf Hn).
      * (* one flag recorded *)
        unfold deliveries in Hfl'. simpl in Hfl'. rewrite app_nil_r in Hfl'.
        split.
        -- intros a m Hin. rewrite Hfl' in Hin. exact (Hrest a m Hin).
        -- intros j pj d Hj. apply (Hothers j pj d Hj). intros -> Hf Hn.
           rewrite list_lookup_insert_eq in Hj by by eapply lookup_lt_Some. injection Hj as <-.
           apply elem_of_app. left.
           destruct (decide (d = direction msg)) as [->|Hd].
           ++ destruct (direction msg); simpl in *; by apply Hecho.
           ++ destruct (direction msg), d; simpl in *; try done;
                by apply (IHp i p).
      * (* leader *)
        unfold deliveries in Hfl'. simpl in Hfl'. rewrite app_nil_r in Hfl'.
        split.
        -- intros a m Hin. rewrite Hfl' in Hin. exact (Hrest a m Hin).
        -- intros j pj d Hj. apply (Hothers j pj d Hj). intros -> Hf Hn.
           rewrite list_lookup_insert_eq in Hj by by eapply lookup_lt_Some. injection Hj as <-.
           apply elem_of_app. left. simpl in *.
           unfold both_confirmed_with in Hb.
           destruct (decide (d = direction msg)) as [->|Hd].
           ++ by apply Hecho.
           ++ destruct (direction msg), d; simpl in *; try done;
                by apply (IHp i p).
      * (* next phase *)
        set (p1 := set_confirm_right false _) in *.
        assert (proc_ok ids i p1) as Hok1 by by apply proc_ok_advance.
        rewrite (deliveries_start_phase ids i p1) in Hfl'
          by (done || by rewrite start_phase_eq).
        split.
        -- intros a m Hin Hn Hcond. rewrite Hfl' in Hin.
           apply elem_of_app in Hin as [Hin|Hin]; [exact (Hrest a m Hin Hn Hcond)|].
           rewrite !elem_of_cons in Hin.
           destruct Hin as [E'|[E'|E']]; [| |by apply elem_of_nil in E'];
             injection E' as -> ->; simpl in *;
             destruct Hcond as [?|?]; (done || lia).
        -- intros j pj d Hj. apply (Hothers j pj d Hj). intros -> Hf Hn.
           rewrite list_lookup_insert_eq in Hj by by eapply lookup_lt_Some. injection Hj as <-.
           by destruct d.
      * (* forwarded *)
        rewrite (deliveries_forward ids i p) in Hfl' by done.
        split.
        -- intros a m Hin Hn Hcond. rewrite Hfl' in Hin.
           apply elem_of_app in Hin as [Hin|Hin]; [exact (Hrest a m Hin Hn Hcond)|].
           apply list_elem_of_singleton in Hin. injection Hin as -> ->.
           assert (home_probe (length ids) (hop msg)
                   = home_probe (length ids) msg) as Ehome.
           { unfold home_probe, hop. by destruct (returning msg). }
           assert (origin_id (hop msg) = origin_id msg
                   /\ msg_phase (hop msg) = msg_phase msg) as [Eo Ek].
           { unfold hop. by destruct (returning msg). }
           rewrite Ehome, Eo. rewrite Ek in Hn, Hcond.
           destruct (returning msg) eqn:Hret.
           { apply elem_of_app. left. apply (IHm (inbox p) msg); try done.
             by left. }
           destruct (decide (distance msg
                             <= 2 ^ msg_phase msg - Z.of_nat (length ids)))
             as [Hfar|Hnear].
           { apply elem_of_app. left. apply (IHm (inbox p) msg); try done.
             by right. }
           assert (distance msg
                   = 2 ^ msg_phase msg - Z.of_nat (length ids) + 1) as Hd.
           { unfold hop in Hcond. rewrite Hret in Hcond. simpl in Hcond.
             destruct (Z.eqb_spec (distance msg - 1) 0);
               destruct Hcond; (done || lia). }
           destruct (probe_at_home ids w i p msg Hnd Hw Hp Hmsg Hret Hd)
             as [Epid Emsg].
           apply elem_of_app. right. apply list_elem_of_singleton.
           by rewrite <- Epid, <- Emsg.
        -- intros j pj d Hj. apply (Hothers j pj d Hj). intros -> Hf Hn.
           rewrite list_lookup_insert_eq in Hj by by eapply lookup_lt_Some. injection Hj as <-.
           apply elem_of_app. left. simpl in *.
           apply (IHp i p d Hp); [by destruct d|done].
Qed.

Lemma self_probe_radius ids w i p msg :
  NoDup ids -> reachable ids w ->
  processes w !! i = Some p ->
  (inbox p, msg) ∈ in_flight w ->
  origin_id msg = pid p ->
  returning msg = false ->
  Z.of_nat (length ids) <= 2 ^ msg_phase msg.
Proof.
  intros Hnd Hw Hp Hin Ho Hret.
  destruct (reachable_election_inv ids w Hnd Hw) as (Hprobes & _ & _).
  rewrite Forall_forall in Hprobes.
  destruct (Hprobes _ Hin) as (o & po & Hpo & H1 & _ & _ & _ & H5).
  simpl in *. rewrite Hret in H5. destruct H5 as (Hd & Hpos & _).
  assert (o = i) as -> by (apply (origin_unique ids w o i po p); congruence).
  destruct (reachable_proc_ok _ _ _ _ Hw Hp) as (Hi & Hinbox & _).
  pose proof (lookup_lt_Some _ _ _ Hi) as Hlt.
  rewrite Hinbox in Hpos.
  set (r := 2 ^ msg_phase msg) in *.
  set (h := r - distance msg + 1) in *.
  assert (1 <= h <= r) as Hh by (unfold h; lia).
  assert (exists q, heading (direction msg) * h = Z.of_nat (length ids) * q)
    as [q Hq].
  { exists ((Z.of_nat i + heading (direction msg) * h)
            / Z.of_nat (length ids)).
    pose proof (Z.div_mod (Z.of_nat i + heading (direction msg) * h)
                  (Z.of_nat (length ids))) as Hdm.
    rewrite <- Hpos in Hdm. lia. }
  assert (0 < Z.of_nat (length ids)) as Hn by lia.
  destruct (direction msg); simpl in Hq;
    destruct (Z.lt_trichotomy q 0) as [?|[?|?]]; nia.
Qed.

Lemma run_log_self ids w log :
  NoDup ids -> run_with_log ids w log ->
  forall x m, (x, m) ∈ log -> origin_id m = x -> returning m = false ->
              Z.of_nat (length ids) <= 2 ^ msg_phase m.
Proof.
  intros Hnd. induction 1 as [|w log a w' Hrun IH Hstep]; intros x m Hin.
  - by apply elem_of_nil in Hin.
  - apply elem_of_app in Hin as [Hin|Hin]; [by apply IH|].
    pose proof (run_with_log_reachable _ _ _ Hrun) as Hw.
    destruct a as [i|i k]; [by apply elem_of_nil in Hin|].
    apply step_iter_full in Hstep
      as (p & msg & rest & Hp & _ & _ & Ht & Hfl & _).
    rewrite Ht in Hin. apply list_elem_of_singleton in Hin.
    injection Hin as -> ->. intros Ho Hret.
    apply (self_probe_radius ids w i p msg); try done.
    rewrite Hfl. by left.
Qed.

(** C9: an outbound message whose origin is the receiver itself is relayed
    by the forward rule, by the same equation as an outbound message of a
    larger origin: one unit of distance less, returning exactly when the new
    distance is 0, and put on the queue that the direction rule names. Such
    messages arise in every run, on every ring of unique identifiers,
    for the probes whose radius is at least the ring size, and only for
    them: a probe of such a radius that has made more than [N] hops or has
    become an echo was received by its own origin, outbound, after [N] hops;
    a process that has declared itself leader has received both probes of
    its last phase in this way; and a process never receives an outbound
    probe of its own whose radius is below the ring size. The run of the
    ring [5, 1] shows it happening: in phase 1 both probes of process 5 sit
    in its own inbox as outbound messages, and after they have been relayed
    the run ends with process 5 TERMINATED in phase 1. *)
Theorem self_probe_relayed_like_foreign (ids : list Z) (acts : list Action)
    (w : World) :
  NoDup ids ->
  run_schedule acts (main_world ids) = Some w ->
  (forall p msg,
     returning msg = false ->
     pid p <= origin_id msg ->
     handle_message p msg
     = (set_message_counter (message_counter p + 1) p,
        [Put (choose_target (hop msg)) (hop msg)])
     /\ origin_id (hop msg) = origin_id msg
     /\ direction (hop msg) = direction msg
     /\ distance (hop msg) = distance msg - 1
     /\ (returning (hop msg) = true <-> distance msg - 1 = 0)
     /\ choose_target (hop msg)
        = match direction msg, returning (hop msg) with
          | LEFT, false => LeftQueue
          | LEFT, true => RightQueue
          | RIGHT, false => RightQueue
          | RIGHT, true => LeftQueue
          end)
  /\ (forall a msg,
        (a, msg) ∈ in_flight w ->
        Z.of_nat (length ids) <= 2 ^ msg_phase msg ->
        returning msg = true
        \/ distance msg <= 2 ^ msg_phase msg - Z.of_nat (length ids) ->
        (origin_id msg, home_probe (length ids) msg)
        ∈ received_log acts (main_world ids))
  /\ (forall i p d,
        processes w !! i = Some p ->
        terminated p ->
        (pid p,
         mkMessage (pid p) d (phase p)
           (2 ^ phase p - Z.of_nat (length ids) + 1) false)
        ∈ received_log acts (main_world ids))
  /\ (forall x msg,
        (x, msg) ∈ received_log acts (main_world ids) ->
        origin_id msg = x ->
        returning msg = false ->
        Z.of_nat (length ids) <= 2 ^ msg_phase msg)
  /\ (run_schedule schedule51_outbound (main_world ring51)
      = Some (world_after ring51 schedule51_outbound)
      /\ pid (process_at (world_after ring51 schedule51_outbound) 0) = 5
      /\ phase (process_at (world_after ring51 schedule51_outbound) 0) = 1
      /\ queues (world_after ring51 schedule51_outbound) !! 0%nat
         = Some [mkMessage 5 LEFT 1 1 false; mkMessage 5 RIGHT 1 1 false]
      /\ stop_event (world_after ring51 schedule51_outbound) = false)
  /\ (run_schedule schedule51 (main_world ring51)
      = Some (world_after ring51 schedule51)
      /\ terminated (process_at (world_after ring51 schedule51) 0)
      /\ phase (process_at (world_after ring51 schedule51) 0) = 1
      /\ stop_event (world_after ring51 schedule51) = true).
Proof.
  intros Hnd Hrun.
  pose proof (run_schedule_log ids acts (main_world ids) [] w
                (rwl_init ids) Hrun) as Hlog.
  simpl in Hlog.
  pose proof (run_with_log_reachable _ _ _ Hlog) as Hw.
  destruct (run_log_inv ids w _ Hnd Hlog) as [Hmsgs Hprocs].
  split; [|split; [exact Hmsgs|split; [|split;
    [exact (run_log_self ids w _ Hnd Hlog)|split; vm_compute; repeat split]]]].
  - intros p msg Hr Hle. split.
    + apply handle_message_forward.
      * unfold killed. apply andb_false_iff. right. by apply Z.ltb_ge.
      * unfold confirms. rewrite Hr. apply andb_false_r.
    + unfold hop, choose_target. rewrite Hr. simpl.
      destruct (Z.eqb_spec (distance msg - 1) 0);
        destruct (direction msg); repeat split; try done.
  - intros i p d Hp Ht.
    destruct (reachable_proc_ok _ _ _ _ Hw Hp)
      as (_ & _ & _ & _ & Hn & _ & _ & _ & Hterm).
    destruct (Hterm Ht) as (Hge & Hl & Hr). rewrite Hn in Hge.
    apply (Hprocs i p d Hp); [by destruct d|done].
Qed.

Lemma self_probe_relayed_like_foreign_witness :
  (5, mkMessage 5 LEFT 1 1 false) ∈ received_log schedule51 (main_world ring51)
  /\ (5, mkMessage 5 RIGHT 1 1 false)
     ∈ received_log schedule51 (main_world ring51)
  /\ handle_message (process_at (world_after ring51 schedule51_outbound) 0)
       (mkMessage 5 LEFT 1 1 false)
     = (set_message_counter 5
          (process_at (world_after ring51 schedule51_outbound) 0),
        [Put RightQueue (mkMessage 5 LEFT 1 0 true)]).
Proof.
  destruct (self_probe_relayed_like_foreign ring51 schedule51
              (world_after ring51 schedule51))
    as (Hfwd & _ & Hleader & _).
  - apply (bool_decide_unpack _). vm_compute. exact I.
  - vm_compute. reflexivity.
  - split; [|split].
    + apply (Hleader 0%nat (process_at (world_after ring51 schedule51) 0)
               LEFT); vm_compute; reflexivity.
    + apply (Hleader 0%nat (process_at (world_after ring51 schedule51) 0)
               RIGHT); vm_compute; reflexivity.
    + apply (Hfwd (process_at (world_after ring51 schedule51_outbound) 0)
               (mkMessage 5 LEFT 1 1 false)); [reflexivity|].
      vm_compute. discriminate.
Defined.
